(** * The syntax-tree Node of IxCompiler (source/mt/B.x-Node.h)

    A shallow embedding of [ixcompiler.Node.c] over an explicit store:
    Nodes, child Arrays and Tokens are separate heap objects reached through
    pointers, so that the aliasing of [Node_getLastChild], the in/out
    [Token**] handles and the recursive teardown of [Node_free] read as in C. *)

From stdpp Require Import gmap list fin_maps.

Abbreviation addr := positive (only parsing).
Abbreviation pointer := (option positive) (only parsing).

(** ** Outcomes of a C call

    [Ok]: the call returns.  [Fault]: the call reads, writes or releases
    storage that is not live, or goes through a null pointer.  [Timeout]:
    the fuel given to a recursive call ran out. *)

Inductive result (A : Type) : Type :=
| Ok (a : A)
| Fault
| Timeout.
Arguments Ok {A} a.
Arguments Fault {A}.
Arguments Timeout {A}.

#[global] Instance result_ret : MRet result := fun A a => Ok a.
#[global] Instance result_bind : MBind result := fun A B f r =>
  match r with
  | Ok a => f a
  | Fault => Fault
  | Timeout => Timeout
  end.

(** ** struct _Node

    [Token* token; const Node* parent; Array* children]: three pointers,
    [None] for null. *)

Record Node : Type := mkNode {
  token : pointer;
  parent : pointer;
  children : pointer
}.

Definition set_token (v : pointer) (nd : Node) : Node :=
  {| token := v; parent := parent nd; children := children nd |}.
Definition set_parent (v : pointer) (nd : Node) : Node :=
  {| token := token nd; parent := v; children := children nd |}.
Definition set_children (v : pointer) (nd : Node) : Node :=
  {| token := token nd; parent := parent nd; children := v |}.

(** What teardown does to the store, in the order it does it. *)
Inductive Event : Type :=
| TokenReleased (t : addr)
| ArrayReleased (a : addr)
| ParentCleared (n : addr)
| NodeReleased (n : addr).

Section Store.
Context {Token : Type}.

(** The store: live Node storage, live child Arrays (elements are [void*],
    so possibly null), live Tokens with their opaque payload, the outcomes
    of the allocation requests still to come ([true]: granted; [false] or
    none left: refused), and the log of releases. *)
Record State : Type := mkState {
  nodes : gmap positive Node;
  arrays : gmap positive (list pointer);
  tokens : gmap positive Token;
  oracle : list bool;
  log : list Event
}.

Definition with_nodes (m : gmap positive Node) (s : State) : State :=
  {| nodes := m; arrays := arrays s; tokens := tokens s;
     oracle := oracle s; log := log s |}.
Definition with_arrays (m : gmap positive (list pointer)) (s : State) : State :=
  {| nodes := nodes s; arrays := m; tokens := tokens s;
     oracle := oracle s; log := log s |}.
Definition with_tokens (m : gmap positive Token) (s : State) : State :=
  {| nodes := nodes s; arrays := arrays s; tokens := m;
     oracle := oracle s; log := log s |}.
Definition with_oracle (o : list bool) (s : State) : State :=
  {| nodes := nodes s; arrays := arrays s; tokens := tokens s;
     oracle := o; log := log s |}.
Definition emit (e : Event) (s : State) : State :=
  {| nodes := nodes s; arrays := arrays s; tokens := tokens s;
     oracle := oracle s; log := log s ++ [e] |}.

(** ** Collaborators that are not part of Node.c *)

(** Modelled from the spec: what fresh storage from [Platform_Alloc] holds
    is not in the sources.  [Node_new] never writes the [parent] field while
    the spec has construct yield "an absent parent", so the storage handed
    out reads as all-null. *)
Definition Node_zero : Node :=
  {| token := None; parent := None; children := None |}.

(** Modelled from the spec: [Platform_Alloc] (ixcompiler.Platform) is missing.
    "Raw allocate/free primitives; failure yields an absent result."  The
    request fails when the oracle says so; a granted request yields an
    address that is not live. *)
Definition Platform_Alloc (s : State) : pointer * State :=
  match oracle s with
  | true :: o =>
      let p := fresh (dom (nodes s)) in
      (Some p, with_oracle o (with_nodes (<[p := Node_zero]> (nodes s)) s))
  | false :: o => (None, with_oracle o s)
  | [] => (None, s)
  end.

(** Modelled from the spec: [Platform_Free] is missing.  It releases the
    storage behind the handle and leaves the handle null; "must not be
    called twice on the same allocation". *)
Definition Platform_Free (self : pointer) (s : State) : result (pointer * State) :=
  match self with
  | None => Ok (None, s)
  | Some p =>
      match nodes s !! p with
      | Some _ => Ok (None, emit (NodeReleased p) (with_nodes (delete p (nodes s)) s))
      | None => Fault
      end
  end.

(** Modelled from the spec: [Token_free] (ixcompiler.Token) is missing.  The
    Lexical Unit is an opaque owned payload; releasing it through a handle
    leaves the handle null, releasing it a second time is a fault. *)
Definition Token_free (self : pointer) (s : State) : result (pointer * State) :=
  match self with
  | None => Ok (None, s)
  | Some t =>
      match tokens s !! t with
      | Some _ => Ok (None, emit (TokenReleased t) (with_tokens (delete t (tokens s)) s))
      | None => Fault
      end
  end.

(** Modelled from the spec: the Ordered Container (ixcompiler.Array) is
    missing: "generic mutable sequence supporting append, remove-front,
    length, and indexed access".  A Node's children collection "is never
    itself absent", so [Array_new] always yields a container. *)
Definition Array_new (s : State) : pointer * State :=
  let a := fresh (dom (arrays s)) in
  (Some a, with_arrays (<[a := []]> (arrays s)) s).

(** Modelled from the spec: every operation of the missing container goes
    through its [Array*]; a null or released container is a fault. *)
Definition Array_load (self : pointer) (s : State) : result (addr * list pointer) :=
  match self with
  | None => Fault
  | Some a =>
      match arrays s !! a with
      | Some l => Ok (a, l)
      | None => Fault
      end
  end.

(** Modelled from the spec: [Array_free] is missing; it releases the
    container behind the handle and leaves the handle null. *)
Definition Array_free (self : pointer) (s : State) : result (pointer * State) :=
  match self with
  | None => Ok (None, s)
  | Some a =>
      match arrays s !! a with
      | Some _ => Ok (None, emit (ArrayReleased a) (with_arrays (delete a (arrays s)) s))
      | None => Fault
      end
  end.

(** Modelled from the spec: [Array_push] is missing; "append": the element
    is stored at the back whatever it is, null included. *)
Definition Array_push (self : pointer) (object : pointer) (s : State)
  : result (pointer * State) :=
  '(a, l) ← Array_load self s;
  Ok (None, with_arrays (<[a := l ++ [object]]> (arrays s)) s).

(** Modelled from the spec: [Array_shift] is missing;
    "remove-and-return-front (used during destruction to drain children)":
    null once the container is empty. *)
Definition Array_shift (self : pointer) (s : State) : result (pointer * State) :=
  '(a, l) ← Array_load self s;
  match l with
  | [] => Ok (None, s)
  | x :: l' => Ok (x, with_arrays (<[a := l']> (arrays s)) s)
  end.

(** Modelled from the spec: [Array_length] is missing; "length", an [int]
    in the callers. *)
Definition Array_length (self : pointer) (s : State) : result Z :=
  '(_, l) ← Array_load self s;
  Ok (Z.of_nat (length l)).

(** Modelled from the spec: [Array_getObject] is missing; "indexed access",
    with "an absent result" outside the container, which is where
    [Node_getLastChild] looks when there are no children. *)
Definition Array_getObject (self : pointer) (index : Z) (s : State) : result pointer :=
  '(_, l) ← Array_load self s;
  if (index <? 0)%Z then Ok None
  else Ok (default None (l !! Z.to_nat index)).

(** Modelled from the spec: the Sequence Iterator (ixcompiler.NodeIterator)
    is missing: it "produces elements of an Ordered Container in order", as
    a live view over the container it was made from. *)
Record NodeIterator : Type := mkNodeIterator {
  it_array : pointer;
  it_next : nat
}.

(** Modelled from the spec: [NodeIterator_new] is missing; the cursor
    starts at the front. *)
Definition NodeIterator_new (array : pointer) : NodeIterator :=
  {| it_array := array; it_next := 0 |}.

(** Modelled from the spec: [NodeIterator_hasNext] is missing. *)
Definition NodeIterator_hasNext (it : NodeIterator) (s : State) : result bool :=
  len ← Array_length (it_array it) s;
  Ok (Z.of_nat (it_next it) <? len)%Z.

(** Modelled from the spec: [NodeIterator_next] is missing. *)
Definition NodeIterator_next (it : NodeIterator) (s : State)
  : result (pointer * NodeIterator) :=
  x ← Array_getObject (it_array it) (Z.of_nat (it_next it)) s;
  Ok (x, {| it_array := it_array it; it_next := S (it_next it) |}).

(** The sequence an iterator produces when a consumer drives it to
    exhaustion: [while ( hasNext ) next]. *)
Fixpoint NodeIterator_collect (fuel : nat) (it : NodeIterator) (s : State)
  : result (list pointer) :=
  match fuel with
  | O => Timeout
  | S fuel' =>
      more ← NodeIterator_hasNext it s;
      if more : bool then
        '(x, it') ← NodeIterator_next it s;
        rest ← NodeIterator_collect fuel' it' s;
        Ok (x :: rest)
      else Ok []
  end.

(** ** ixcompiler.Node.c *)

(** Reading through a [Node*]: [self->field]. *)
Definition Node_load (self : pointer) (s : State) : result Node :=
  match self with
  | None => Fault
  | Some p =>
      match nodes s !! p with
      | Some nd => Ok nd
      | None => Fault
      end
  end.

(** Writing through a [Node*]: [self->field = v]. *)
Definition Node_store (self : pointer) (f : Node → Node) (s : State) : result State :=
  match self with
  | None => Fault
  | Some p =>
      match nodes s !! p with
      | Some nd => Ok (with_nodes (<[p := f nd]> (nodes s)) s)
      | None => Fault
      end
  end.

(** [Node* Node_new( Token** token )]: the result, the caller's handle
    after the call, and the store.  Only [token] and [children] are written
    in the fresh storage. *)
Definition Node_new (tok : pointer) (s : State) : pointer * pointer * State :=
  match Platform_Alloc s with
  | (Some p, s1) =>
      let s2 := with_nodes (alter (set_token tok) p (nodes s1)) s1 in
      let '(a, s3) := Array_new s2 in
      let s4 := with_nodes (alter (set_children a) p (nodes s3)) s3 in
      (Some p, None, s4)
  | (None, s1) => (None, tok, s1)
  end.

(** [Node_free( Node** self )]: the handle after the call and the store.
    The body has no [return]; callers ignore the declared result.
    [Node_free_children] is the [while] loop that drains the children; the
    fuel bounds the depth of the calls and the turns of the loops. *)
Fixpoint Node_free (fuel : nat) (self : pointer) (s : State)
  : result (pointer * State) :=
  match self with
  | None => Ok (None, s)
  | Some p =>
      match fuel with
      | O => Timeout
      | S fuel' =>
          nd ← Node_load (Some p) s;
          '(tok, s1) ← Token_free (token nd) s;
          s2 ← Node_store (Some p) (set_token tok) s1;
          s3 ← Node_free_children fuel' (Some p) s2;
          nd3 ← Node_load (Some p) s3;
          '(arr, s4) ← Array_free (children nd3) s3;
          s5 ← Node_store (Some p) (set_children arr) s4;
          s6 ← Node_store (Some p) (set_parent None) s5;
          Platform_Free (Some p) (emit (ParentCleared p) s6)
      end
  end
with Node_free_children (fuel : nat) (self : pointer) (s : State) : result State :=
  match fuel with
  | O => Timeout
  | S fuel' =>
      nd ← Node_load self s;
      '(node, s1) ← Array_shift (children nd) s;
      match node with
      | None => Ok s1
      | Some _ =>
          '(_, s2) ← Node_free fuel' node s1;
          Node_free_children fuel' self s2
      end
  end.

(** [void Node_setParent( Node* self, const Node* parent )]. *)
Definition Node_setParent (self : pointer) (parent' : pointer) (s : State)
  : result State :=
  Node_store self (set_parent parent') s.

(** [Node_addChild( Node* self, Token** token )]: the caller's handle after
    the call and the store. *)
Definition Node_addChild (self : pointer) (tok : pointer) (s : State)
  : result (pointer * State) :=
  let '(child, tok', s1) := Node_new tok s in
  nd ← Node_load self s1;
  '(_, s2) ← Array_push (children nd) child s1;
  Ok (tok', s2).

(** [const Token* Node_getToken( const Node* self )]. *)
Definition Node_getToken (self : pointer) (s : State) : result pointer :=
  nd ← Node_load self s;
  Ok (token nd).

(** [bool Node_hasChildren( const Node* self )]. *)
Definition Node_hasChildren (self : pointer) (s : State) : result bool :=
  nd ← Node_load self s;
  len ← Array_length (children nd) s;
  Ok (0 <? len)%Z.

(** The children count that [Node_hasChildren] compares with zero. *)
Definition Node_childCount (self : pointer) (s : State) : result Z :=
  nd ← Node_load self s;
  Array_length (children nd) s.

(** [NodeIterator* Node_iterator( const Node* self )]. *)
Definition Node_iterator (self : pointer) (s : State) : result NodeIterator :=
  nd ← Node_load self s;
  Ok (NodeIterator_new (children nd)).

(** [Node* Node_getLastChild( Node* self )]: [int last] is the length
    minus one, so -1 on an empty container. *)
Definition Node_getLastChild (self : pointer) (s : State) : result pointer :=
  nd ← Node_load self s;
  len ← Array_length (children nd) s;
  let last := (len - 1)%Z in
  Array_getObject (children nd) last s.

End Store.

Arguments State : clear implicits.

(** ** The shape of an owned tree

    [Tree n tk a kids]: the Node at [n] owns the Token [tk] and the Array
    [a], whose elements are the roots of [kids], front to back. *)

#[local] Unset Elimination Schemes.
Inductive tree : Type :=
| Tree (n : addr) (tk : addr) (a : addr) (kids : list tree).
#[local] Set Elimination Schemes.

Definition root (t : tree) : addr :=
  match t with Tree n _ _ _ => n end.

(** The cells of a tree, the Node before its children, children front to
    back; [f] picks what to keep of each cell. *)
Section walk.
Context {A : Type} (f : addr → addr → addr → A).

Fixpoint walk (t : tree) : list A :=
  match t with
  | Tree n tk a kids => f n tk a :: (kids ≫= walk)
  end.

End walk.

Definition tree_nodes : tree → list addr := walk (λ n _ _, n).
Definition tree_tokens : tree → list addr := walk (λ _ tk _, tk).
Definition tree_arrays : tree → list addr := walk (λ _ _ a, a).

(** The releases of [Node_free] on an owned tree, in the order of the code:
    the Node's own Token, each child front to back, the emptied Array, the
    parent field, the Node's storage. *)
Fixpoint teardown (t : tree) : list Event :=
  match t with
  | Tree n tk a kids =>
      TokenReleased tk :: (kids ≫= teardown)
        ++ [ArrayReleased a; ParentCleared n; NodeReleased n]
  end.

(** [tree_add a c t]: [c] appended to the children of the Node of [t] that
    owns the Array [a]. *)
Fixpoint tree_add (a : addr) (c : tree) (t : tree) : tree :=
  match t with
  | Tree n tk a' kids =>
      Tree n tk a' ((tree_add a c <$> kids) ++ (if decide (a' = a) then [c] else []))
  end.

Definition released_nodes (evs : list Event) : list addr :=
  omap (λ e, match e with NodeReleased n => Some n | _ => None end) evs.

Definition released_tokens (evs : list Event) : list addr :=
  omap (λ e, match e with TokenReleased t => Some t | _ => None end) evs.

(** The order of destruction in the words of the specification: every child
    front to back, then the Node's own Lexical Unit, then the parent
    reference, then the Node's storage. *)
Fixpoint destroy_order (t : tree) : list Event :=
  match t with
  | Tree n tk a kids =>
      (kids ≫= destroy_order) ++ [TokenReleased tk; ParentCleared n; NodeReleased n]
  end.

(** The log without the releases of the child containers, which the
    specification's order does not mention. *)
Definition without_arrays (evs : list Event) : list Event :=
  omap (λ e, match e with ArrayReleased _ => None | _ => Some e end) evs.

(** The record of who was appended to whom, extended by what a construction
    returned: a new Node starts with no children, a failed construction
    adds nothing. *)
Definition made (r : pointer) (ch : gmap positive (list pointer))
  : gmap positive (list pointer) :=
  match r with
  | Some n => <[n := []]> ch
  | None => ch
  end.

(** ** Stores that hold a tree *)

Section Layout.
Context {Token : Type}.
Implicit Types (s : State Token) (t : tree).

(** [owns s t]: the store lays out the tree [t]. *)
#[local] Unset Elimination Schemes.
Inductive owns s : tree → Prop :=
| owns_Tree n tk a kids nd :
    nodes s !! n = Some nd →
    token nd = Some tk →
    children nd = Some a →
    arrays s !! a = Some ((λ k, Some (root k)) <$> kids) →
    is_Some (tokens s !! tk) →
    Forall (owns s) kids →
    owns s (Tree n tk a kids).
#[local] Set Elimination Schemes.

Definition separate t : Prop :=
  NoDup (tree_nodes t) ∧ NoDup (tree_tokens t) ∧ NoDup (tree_arrays t).

(** [released N A T evs s s']: [s'] is [s] without the Nodes [N], the Arrays
    [A] and the Tokens [T], and with [evs] appended to the log. *)
Definition released (N A T : list addr) (evs : list Event) s s' : Prop :=
  (∀ p, nodes s' !! p = if decide (p ∈ N) then None else nodes s !! p) ∧
  (∀ p, arrays s' !! p = if decide (p ∈ A) then None else arrays s !! p) ∧
  (∀ p, tokens s' !! p = if decide (p ∈ T) then None else tokens s !! p) ∧
  oracle s' = oracle s ∧
  log s' = log s ++ evs.

(** What the teardown lemma says of one tree: on a store that lays [t] out
    with separate cells, [Node_free] returns with enough fuel and leaves
    the store without the cells of [t]. *)
Definition teardown_ok t : Prop :=
  ∀ s fuel,
    owns s t → separate t → 2 * length (tree_nodes t) ≤ fuel →
    ∃ s', Node_free fuel (Some (root t)) s = Ok (None, s') ∧
          released (tree_nodes t) (tree_arrays t) (tree_tokens t) (teardown t) s s'.

(** The store after a successful [Node_new]: one fresh Node holding the
    moved Token and one fresh, empty Array. *)
Definition constructed (tok : pointer) s : State Token :=
  {| nodes := <[fresh (dom (nodes s)) :=
                  {| token := tok; parent := None;
                     children := Some (fresh (dom (arrays s))) |}]> (nodes s);
     arrays := <[fresh (dom (arrays s)) := []]> (arrays s);
     tokens := tokens s;
     oracle := tail (oracle s);
     log := log s |}.

(** [Built r ns ts s]: in [s], [r] heads a tree made by one
    [Node_new] and then [Node_addChild] calls on Nodes of the tree, every
    allocation succeeding; [ns] are the Nodes made and [ts] the Tokens moved
    in, each Token live and in no Node of the tree when handed over. *)
Inductive Built : addr → list addr → list addr → State Token → Prop :=
| Built_construct s0 tk r h s :
    is_Some (tokens s0 !! tk) →
    Node_new (Some tk) s0 = (Some r, h, s) →
    Built r [r] [tk] s
| Built_addChild r ns ts s n tk c h1 s1 h s' :
    Built r ns ts s →
    n ∈ ns →
    is_Some (tokens s !! tk) → tk ∉ ts →
    Node_new (Some tk) s = (Some c, h1, s1) →
    Node_addChild (Some n) (Some tk) s = Ok (h, s') →
    Built r (ns ++ [c]) (ts ++ [tk]) s'.

(** [Assembled ch s]: [s] comes from some store by calls of [Node_new], of
    [Node_addChild] on Nodes made so far and of [Node_setParent], in any
    order, on any Nodes of any trees, whatever the allocator answers.  [ch]
    records, for every Node made, the children appended to it in the order
    of the calls; each child is what the construction inside the call
    returned, null when it failed. *)
Inductive Assembled : gmap positive (list pointer) → State Token → Prop :=
| Assembled_start s :
    Assembled ∅ s
| Assembled_new ch s tok r h s' :
    Assembled ch s →
    Node_new tok s = (r, h, s') →
    Assembled (made r ch) s'
| Assembled_addChild ch s m cs tok c h1 s1 h s' :
    Assembled ch s →
    ch !! m = Some cs →
    Node_new tok s = (c, h1, s1) →
    Node_addChild (Some m) tok s = Ok (h, s') →
    Assembled (<[m := cs ++ [c]]> (made c ch)) s'
| Assembled_setParent ch s m p s' :
    Assembled ch s →
    Node_setParent (Some m) p s = Ok s' →
    Assembled ch s'.

(** [tracked ch s]: every Node recorded in [ch] is live in [s] with a live
    container that holds exactly the recorded children, and no two recorded
    Nodes have the same container. *)
Definition tracked (ch : gmap positive (list pointer)) s : Prop :=
  (∀ n cs, ch !! n = Some cs →
     ∃ nd a, nodes s !! n = Some nd ∧ children nd = Some a
             ∧ arrays s !! a = Some cs) ∧
  (∀ n m csn csm ndn ndm,
     ch !! n = Some csn → ch !! m = Some csm →
     nodes s !! n = Some ndn → nodes s !! m = Some ndm →
     children ndn = children ndm → n = m).

End Layout.

Arguments teardown_ok : clear implicits.

(** ** Worked stores

    [root = construct(T0)]; [addChild(root, T1)]; [child = getLastChild(root)];
    [addChild(child, T2)], with the Tokens at 10, 11 and 12. *)

Definition ex_store0 : State nat :=
  {| nodes := ∅; arrays := ∅;
     tokens := {[ 10%positive := 0; 11%positive := 1; 12%positive := 2 ]};
     oracle := [true; true; true]; log := [] |}.

Definition ex_store1 : State nat := constructed (Some 10%positive) ex_store0.

Definition ex_store2 : State nat :=
  with_arrays (<[1%positive := [Some 2%positive]]>
                 (arrays (constructed (Some 11%positive) ex_store1)))
              (constructed (Some 11%positive) ex_store1).

Definition ex_store3 : State nat :=
  with_arrays (<[2%positive := [Some 3%positive]]>
                 (arrays (constructed (Some 12%positive) ex_store2)))
              (constructed (Some 12%positive) ex_store2).

Definition ex_tree2 : tree :=
  Tree 1 10 1 [Tree 2 11 2 []].

(** [ex_store1] once the allocator has nothing left to give. *)
Definition ex_store1_full : State nat := with_oracle [] ex_store1.

Definition ex_store0_full : State nat := with_oracle [false] ex_store0.

Definition released_arrays (evs : list Event) : list addr :=
  omap (λ e, match e with ArrayReleased a => Some a | _ => None end) evs.

(** The cells of a tree as triples: Node, Token, Array. *)
Definition tree_cells : tree → list (addr * addr * addr) :=
  walk (λ n tk a, (n, tk, a)).

(** The store after [Node_addChild( n, &tok )], whatever came of it. *)
Definition after_addChild (n : addr) (tok : pointer) (s : State nat) : State nat :=
  match Node_addChild (Some n) tok s with
  | Ok (_, s') => s'
  | _ => s
  end.

(** [root = construct(T0)], then [addChild(root, T1)] twice with the
    allocator refusing the first time: the container of the root holds a
    null and, behind it, the Node at 2. *)
Definition ex_gap1 : State nat :=
  constructed (Some 10%positive) (with_oracle [true; false; true] ex_store0).

Definition ex_gap3 : State nat :=
  after_addChild 1 (Some 11%positive) (after_addChild 1 (Some 11%positive) ex_gap1).

(** [ex_store2] after [Node_free] on the child at 2 alone. *)
Definition ex_store2_orphan : State nat :=
  match Node_free 2 (Some 2%positive) ex_store2 with
  | Ok (_, s') => s'
  | _ => ex_store2
  end.

(** [ex_store2] after [Node_setParent( child, child )]. *)
Definition ex_store2_linked : State nat :=
  match Node_setParent (Some 2%positive) (Some 2%positive) ex_store2 with
  | Ok s' => s'
  | _ => ex_store2
  end.

(** Four Tokens and four grants: [root = construct(T0)];
    [addChild(root, T1)]; [addChild(getLastChild(root), T2)];
    [addChild(root, T3)].  The root at 1 has the children 2 and 4, in that
    order, and the Node at 2 has the child 3. *)
Definition ex_bush0 : State nat :=
  {| nodes := ∅; arrays := ∅;
     tokens := {[ 10%positive := 0; 11%positive := 1; 12%positive := 2;
                  13%positive := 3 ]};
     oracle := [true; true; true; true]; log := [] |}.

Definition ex_bush1 : State nat := constructed (Some 10%positive) ex_bush0.
Definition ex_bush2 : State nat := after_addChild 1 (Some 11%positive) ex_bush1.
Definition ex_bush3 : State nat := after_addChild 2 (Some 12%positive) ex_bush2.
Definition ex_bush : State nat := after_addChild 1 (Some 13%positive) ex_bush3.

Definition ex_bush_children : gmap positive (list pointer) :=
  <[1%positive := ([] ++ [Some 2%positive]) ++ [Some 4%positive]]>
    (made (Some 4%positive)
       (<[2%positive := [] ++ [Some 3%positive]]>
          (made (Some 3%positive)
             (<[1%positive := [] ++ [Some 2%positive]]>
                (made (Some 2%positive) (made (Some 1%positive) ∅)))))).

(** * Proofs *)

Ltac by_cases :=
  repeat (destruct (decide _) as [?Hin|?Hout]); subst; try done;
  exfalso; rewrite ?elem_of_cons, ?elem_of_app in *; tauto.

Lemma tree_ind' (P : tree → Prop) :
  (∀ n tk a kids, Forall P kids → P (Tree n tk a kids)) → ∀ t, P t.
Proof.
  intros step. fix IH 1. intros [n tk a kids]. apply step.
  induction kids as [|k kids IHkids]; constructor; [apply IH | exact IHkids].
Qed.

Section Ownership.
Context {Token : Type}.
Implicit Types (s : State Token) (t : tree).

(** Two stores that agree on the cells of a tree lay it out alike. *)
Lemma owns_agree s s' t :
  owns s t →
  (∀ p, p ∈ tree_nodes t → nodes s' !! p = nodes s !! p) →
  (∀ p, p ∈ tree_arrays t → arrays s' !! p = arrays s !! p) →
  (∀ p, p ∈ tree_tokens t → tokens s' !! p = tokens s !! p) →
  owns s' t.
Proof.
  induction t as [n tk a kids IH] using tree_ind'.
  intros Hown Hn Ha Ht. inversion Hown as [? ? ? ? nd Hnd Htk Hch Harr Hlive Hkids]; subst.
  apply owns_Tree with nd; try done.
  - rewrite Hn; [done|]. unfold tree_nodes; simpl. set_solver.
  - rewrite Ha; [done|]. unfold tree_arrays; simpl. set_solver.
  - rewrite Ht; [done|]. unfold tree_tokens; simpl. set_solver.
  - rewrite Forall_forall in IH, Hkids. apply Forall_forall. intros k Hk.
    apply IH; [done|by apply Hkids|..]; intros p Hp.
    + apply Hn. unfold tree_nodes in *; simpl. apply elem_of_cons. right.
      apply list_elem_of_bind. eauto.
    + apply Ha. unfold tree_arrays in *; simpl. apply elem_of_cons. right.
      apply list_elem_of_bind. eauto.
    + apply Ht. unfold tree_tokens in *; simpl. apply elem_of_cons. right.
      apply list_elem_of_bind. eauto.
Qed.

(** *** One step of each collaborator on live storage *)

Lemma Node_load_live s p nd :
  nodes s !! p = Some nd → Node_load (Some p) s = Ok nd.
Proof. intros H. unfold Node_load. by rewrite H. Qed.

Lemma Node_store_live s p nd f :
  nodes s !! p = Some nd →
  Node_store (Some p) f s = Ok (with_nodes (<[p := f nd]> (nodes s)) s).
Proof. intros H. unfold Node_store. by rewrite H. Qed.

Lemma Token_free_live s tk :
  is_Some (tokens s !! tk) →
  Token_free (Some tk) s
  = Ok (None, emit (TokenReleased tk) (with_tokens (delete tk (tokens s)) s)).
Proof. intros [x H]. unfold Token_free. by rewrite H. Qed.

Lemma Array_free_live s a l :
  arrays s !! a = Some l →
  Array_free (Some a) s
  = Ok (None, emit (ArrayReleased a) (with_arrays (delete a (arrays s)) s)).
Proof. intros H. unfold Array_free. by rewrite H. Qed.

Lemma Platform_Free_live s p nd :
  nodes s !! p = Some nd →
  Platform_Free (Some p) s
  = Ok (None, emit (NodeReleased p) (with_nodes (delete p (nodes s)) s)).
Proof. intros H. unfold Platform_Free. by rewrite H. Qed.

Lemma Array_shift_empty s a :
  arrays s !! a = Some [] → Array_shift (Some a) s = Ok (None, s).
Proof. intros H. unfold Array_shift, Array_load. by rewrite H. Qed.

Lemma Array_shift_front s a x l :
  arrays s !! a = Some (x :: l) →
  Array_shift (Some a) s = Ok (x, with_arrays (<[a := l]> (arrays s)) s).
Proof. intros H. unfold Array_shift, Array_load. by rewrite H. Qed.

Lemma Node_free_unfold fuel p s :
  Node_free (S fuel) (Some p) s =
    (nd ← Node_load (Some p) s;
     '(tok, s1) ← Token_free (token nd) s;
     s2 ← Node_store (Some p) (set_token tok) s1;
     s3 ← Node_free_children fuel (Some p) s2;
     nd3 ← Node_load (Some p) s3;
     '(arr, s4) ← Array_free (children nd3) s3;
     s5 ← Node_store (Some p) (set_children arr) s4;
     s6 ← Node_store (Some p) (set_parent None) s5;
     Platform_Free (Some p) (emit (ParentCleared p) s6)).
Proof. reflexivity. Qed.

Lemma Node_free_children_unfold fuel self s :
  Node_free_children (S fuel) self s =
    (nd ← Node_load self s;
     '(node, s1) ← Array_shift (children nd) s;
     match node with
     | None => Ok s1
     | Some _ =>
         '(_, s2) ← Node_free fuel node s1;
         Node_free_children fuel self s2
     end).
Proof. reflexivity. Qed.

Lemma bind_Ok {A B} (a : A) (f : A → result B) : (Ok a ≫= f) = f a.
Proof. reflexivity. Qed.

(** *** The teardown of an owned tree *)

Lemma Node_free_children_drain kids :
  Forall (teardown_ok Token) kids →
  ∀ s fuel n nd a,
    nodes s !! n = Some nd → children nd = Some a →
    arrays s !! a = Some ((λ k, Some (root k)) <$> kids) →
    Forall (owns s) kids →
    NoDup (kids ≫= tree_nodes) → NoDup (kids ≫= tree_tokens) →
    NoDup (kids ≫= tree_arrays) →
    n ∉ kids ≫= tree_nodes → a ∉ kids ≫= tree_arrays →
    1 + 2 * length (kids ≫= tree_nodes) ≤ fuel →
    ∃ s', Node_free_children fuel (Some n) s = Ok s' ∧
          released (kids ≫= tree_nodes) (kids ≫= tree_arrays) (kids ≫= tree_tokens)
                   (kids ≫= teardown) (with_arrays (<[a := []]> (arrays s)) s) s'.
Proof.
  induction 1 as [|k ks Hk Hks IH];
    intros s fuel n nd a Hnd Hch Harr Hown NDn NDt NDa Hn Ha Hfuel.
  - destruct fuel as [|fuel]; [simpl in Hfuel; lia|].
    exists s. split.
    + rewrite Node_free_children_unfold, (Node_load_live _ _ _ Hnd), bind_Ok, Hch.
      by rewrite (Array_shift_empty _ _ Harr).
    + repeat split; simpl; try done.
      * intros p. rewrite insert_id; done.
      * by rewrite app_nil_r.
  - destruct fuel as [|fuel]; [simpl in Hfuel; lia|].
    rewrite !bind_cons in *.
    apply NoDup_app in NDn as (NDn1 & NDn2 & NDn3).
    apply NoDup_app in NDt as (NDt1 & NDt2 & NDt3).
    apply NoDup_app in NDa as (NDa1 & NDa2 & NDa3).
    apply not_elem_of_app in Hn as [Hn1 Hn2].
    apply not_elem_of_app in Ha as [Ha1 Ha2].
    rewrite length_app in Hfuel.
    apply Forall_cons in Hown as [Hownk Hownks].
    rewrite fmap_cons in Harr.
    set (s1 := with_arrays (<[a := (λ k, Some (root k)) <$> ks]> (arrays s)) s).
    assert (Hown1 : owns s1 k).
    { apply (owns_agree s); [done|done| |done].
      intros p Hp. simpl. rewrite lookup_insert_ne; [done|]. by intros ->. }
    destruct (Hk s1 fuel Hown1) as (s2 & Hrun & Hn2' & Ha2' & Ht2' & Ho2 & Hl2).
    { done. }
    { lia. }
    destruct (IH s2 fuel n nd a) as (s3 & Hrun3 & Hn3' & Ha3' & Ht3' & Ho3 & Hl3).
    { rewrite Hn2'. by rewrite decide_False. }
    { done. }
    { rewrite Ha2'. rewrite decide_False by done. simpl. by rewrite lookup_insert_eq. }
    { rewrite Forall_forall in Hownks. apply Forall_forall. intros k' Hk'.
      apply (owns_agree s); [by apply Hownks|..]; intros p Hp.
      - rewrite Hn2'. rewrite decide_False; [done|].
        intros Hin. apply (NDn2 p Hin). apply list_elem_of_bind. eauto.
      - rewrite Ha2'. rewrite decide_False.
        + simpl. rewrite lookup_insert_ne; [done|]. intros ->.
          apply Ha2. apply list_elem_of_bind. eauto.
        + intros Hin. apply (NDa2 p Hin). apply list_elem_of_bind. eauto.
      - rewrite Ht2'. rewrite decide_False; [done|].
        intros Hin. apply (NDt2 p Hin). apply list_elem_of_bind. eauto. }
    { done. } { done. } { done. } { done. } { done. }
    { assert (0 < length (tree_nodes k)) by (destruct k; simpl; lia). lia. }
    exists s3. split.
    + rewrite Node_free_children_unfold, (Node_load_live _ _ _ Hnd), bind_Ok, Hch.
      rewrite (Array_shift_front _ _ _ _ Harr), bind_Ok. fold s1.
      rewrite Hrun, bind_Ok. done.
    + repeat split.
      * intros p. rewrite Hn3', Hn2'. simpl.
        by_cases.
      * intros p. rewrite Ha3'. simpl. 
        destruct (decide (p = a)) as [->|Hne].
        -- rewrite !lookup_insert_eq. by_cases.
        -- rewrite !lookup_insert_ne by done. rewrite Ha2'. simpl.
           rewrite lookup_insert_ne by done.
           by_cases.
      * intros p. rewrite Ht3', Ht2'. simpl.
        by_cases.
      * rewrite Ho3. simpl. by rewrite Ho2.
      * rewrite Hl3. simpl. rewrite Hl2. simpl. by rewrite app_assoc.
Qed.

Lemma Node_free_teardown t : teardown_ok Token t.
Proof.
  induction t as [n tk a kids IH] using tree_ind'.
  intros s fuel Hown (NDn & NDt & NDa) Hfuel.
  inversion Hown as [? ? ? ? nd Hnd Htk Hch Harr Hlive Hkids]; subst.
  unfold tree_nodes, tree_tokens, tree_arrays in *. simpl in *.
  fold tree_nodes tree_tokens tree_arrays in *.
  apply NoDup_cons in NDn as [Hn NDn].
  apply NoDup_cons in NDt as [Ht NDt].
  apply NoDup_cons in NDa as [Ha NDa].
  destruct fuel as [|fuel]; [lia|].
  set (s1 := emit (TokenReleased tk) (with_tokens (delete tk (tokens s)) s)).
  set (s2 := with_nodes (<[n := set_token None nd]> (nodes s1)) s1).
  destruct (Node_free_children_drain kids IH s2 fuel n (set_token None nd) a)
    as (s3 & Hrun & Hn3 & Ha3 & Ht3 & Ho3 & Hl3).
  { simpl. by rewrite lookup_insert_eq. }
  { done. }
  { done. }
  { rewrite Forall_forall in Hkids. apply Forall_forall. intros k Hk.
    apply (owns_agree s); [by apply Hkids|..]; intros p Hp; simpl.
    - rewrite lookup_insert_ne; [done|]. intros <-.
      apply Hn. apply list_elem_of_bind. eauto.
    - done.
    - rewrite lookup_delete_ne; [done|]. intros <-.
      apply Ht. apply list_elem_of_bind. eauto. }
  { done. } { done. } { done. } { done. } { done. }
  { lia. }
  simpl in Hn3, Ha3, Ht3, Ho3, Hl3.
  assert (Hnd3 : nodes s3 !! n = Some (set_token None nd)).
  { rewrite Hn3. rewrite decide_False by done. by rewrite lookup_insert_eq. }
  assert (Harr3 : arrays s3 !! a = Some []).
  { rewrite Ha3. rewrite decide_False by done. by rewrite lookup_insert_eq. }
  set (s4 := emit (ArrayReleased a) (with_arrays (delete a (arrays s3)) s3)).
  set (s5 := with_nodes (<[n := set_children None (set_token None nd)]> (nodes s4)) s4).
  set (s6 := with_nodes
               (<[n := set_parent None (set_children None (set_token None nd))]>
                  (nodes s5)) s5).
  eexists. split.
  - rewrite Node_free_unfold, (Node_load_live _ _ _ Hnd), bind_Ok, Htk.
    rewrite (Token_free_live _ _ Hlive), bind_Ok. fold s1.
    rewrite (Node_store_live s1 n nd) by done. rewrite bind_Ok. fold s2.
    rewrite Hrun, bind_Ok, (Node_load_live _ _ _ Hnd3), bind_Ok.
    simpl children. rewrite Hch, (Array_free_live _ _ _ Harr3), bind_Ok. fold s4.
    rewrite (Node_store_live s4 n (set_token None nd)) by done.
    rewrite bind_Ok. fold s5.
    rewrite (Node_store_live s5 n (set_children None (set_token None nd)))
      by (simpl; by rewrite lookup_insert_eq).
    rewrite bind_Ok. fold s6.
    rewrite (Platform_Free_live _ n (set_parent None (set_children None (set_token None nd))))
      by (simpl; by rewrite lookup_insert_eq).
    reflexivity.
  - repeat split; simpl.
    + intros p. destruct (decide (p = n)) as [->|Hne].
      * rewrite lookup_delete_eq. by_cases.
      * rewrite lookup_delete_ne, !lookup_insert_ne by done.
        rewrite Hn3, lookup_insert_ne by done. by_cases.
    + intros p. destruct (decide (p = a)) as [->|Hne].
      * rewrite lookup_delete_eq. by_cases.
      * rewrite lookup_delete_ne by done. rewrite Ha3.
        rewrite lookup_insert_ne by done. by_cases.
    + intros p. rewrite Ht3. destruct (decide (p = tk)) as [->|Hne].
      * rewrite lookup_delete_eq. by_cases.
      * rewrite lookup_delete_ne by done. by_cases.
    + done.
    + rewrite Hl3. by rewrite <- !app_assoc.
Qed.

End Ownership.

(** ** What [Node_new] and [Node_addChild] do to the store *)

Section Construction.
Context {Token : Type}.
Implicit Types (s : State Token).

Lemma Node_new_granted tok s :
  head (oracle s) = Some true →
  Node_new tok s = (Some (fresh (dom (nodes s))), None, constructed tok s).
Proof.
  intros Hor. unfold Node_new, Platform_Alloc.
  destruct (oracle s) as [|[] o] eqn:E; simplify_eq/=.
  unfold constructed, with_nodes, with_arrays, with_oracle. simpl.
  rewrite E. simpl. by rewrite !alter_insert_eq.
Qed.

Lemma Node_new_refused tok s :
  head (oracle s) ≠ Some true →
  Node_new tok s = (None, tok, with_oracle (tail (oracle s)) s).
Proof.
  intros Hor. unfold Node_new, Platform_Alloc.
  destruct (oracle s) as [|[] o] eqn:E; simplify_eq/=; try done.
  unfold with_oracle. rewrite <- E. by destruct s.
Qed.

Lemma Node_new_inv tok s r h s' :
  Node_new tok s = (r, h, s') →
  (head (oracle s) = Some true ∧ r = Some (fresh (dom (nodes s))) ∧ h = None
   ∧ s' = constructed tok s)
  ∨ (head (oracle s) ≠ Some true ∧ r = None ∧ h = tok
     ∧ s' = with_oracle (tail (oracle s)) s).
Proof.
  intros H. destruct (decide (head (oracle s) = Some true)) as [Hor|Hor].
  - rewrite (Node_new_granted _ _ Hor) in H. left. by simplify_eq.
  - rewrite (Node_new_refused _ _ Hor) in H. right. by simplify_eq.
Qed.

Lemma fresh_node s : nodes s !! fresh (dom (nodes s)) = None.
Proof. apply not_elem_of_dom, is_fresh. Qed.

Lemma fresh_array s : arrays s !! fresh (dom (arrays s)) = None.
Proof. apply not_elem_of_dom, is_fresh. Qed.

(** [Node_addChild] on a live Node whose Array is live. *)
Lemma Node_addChild_run n tok s nd a l :
  nodes s !! n = Some nd → children nd = Some a → arrays s !! a = Some l →
  ∀ child h s1, Node_new tok s = (child, h, s1) →
    Node_addChild (Some n) tok s
    = Ok (h, with_arrays (<[a := l ++ [child]]> (arrays s1)) s1)
    ∧ nodes s1 !! n = Some nd ∧ arrays s1 !! a = Some l.
Proof.
  intros Hnd Hch Harr child h s1 Hnew.
  assert (nodes s1 !! n = Some nd ∧ arrays s1 !! a = Some l) as [Hnd1 Harr1].
  { destruct (Node_new_inv _ _ _ _ _ Hnew) as [(_ & _ & _ & ->)|(_ & _ & _ & ->)];
      simpl; [|done].
    split; (rewrite lookup_insert_ne; [done|]); intros E.
    - pose proof (fresh_node s) as F. rewrite E in F. congruence.
    - pose proof (fresh_array s) as F. rewrite E in F. congruence. }
  split; [|done].
  unfold Node_addChild. rewrite Hnew.
  rewrite (Node_load_live _ _ _ Hnd1), bind_Ok, Hch.
  unfold Array_push, Array_load. rewrite Harr1. reflexivity.
Qed.

(** *** Observations on a live Node *)

Lemma Node_childCount_inv n s k :
  Node_childCount (Some n) s = Ok k →
  ∃ nd a l, nodes s !! n = Some nd ∧ children nd = Some a
            ∧ arrays s !! a = Some l ∧ k = Z.of_nat (length l).
Proof.
  unfold Node_childCount, Node_load, Array_length, Array_load.
  destruct (nodes s !! n) as [nd|]; [|done]. simpl.
  destruct (children nd) as [a|] eqn:Ec; [|done].
  destruct (arrays s !! a) as [l|] eqn:E; [|done]. simpl.
  intros [= <-]. by exists nd, a, l.
Qed.

Lemma Node_childCount_live n s nd a l :
  nodes s !! n = Some nd → children nd = Some a → arrays s !! a = Some l →
  Node_childCount (Some n) s = Ok (Z.of_nat (length l)).
Proof.
  intros Hnd Hch Harr. unfold Node_childCount.
  rewrite (Node_load_live _ _ _ Hnd), bind_Ok, Hch.
  unfold Array_length, Array_load. by rewrite Harr.
Qed.

Lemma Node_hasChildren_live n s nd a l :
  nodes s !! n = Some nd → children nd = Some a → arrays s !! a = Some l →
  Node_hasChildren (Some n) s = Ok (0 <? Z.of_nat (length l))%Z.
Proof.
  intros Hnd Hch Harr. unfold Node_hasChildren.
  rewrite (Node_load_live _ _ _ Hnd), bind_Ok, Hch.
  unfold Array_length, Array_load. by rewrite Harr.
Qed.

Lemma Node_getLastChild_live n s nd a l :
  nodes s !! n = Some nd → children nd = Some a → arrays s !! a = Some l →
  Node_getLastChild (Some n) s = Ok (default None (last l)).
Proof.
  intros Hnd Hch Harr. unfold Node_getLastChild.
  rewrite (Node_load_live _ _ _ Hnd), bind_Ok, Hch.
  unfold Array_length, Array_getObject, Array_load. rewrite Harr. simpl.
  destruct l as [|x l _] using rev_ind; [done|].
  rewrite last_snoc, length_app. simpl.
  destruct (Z.ltb_spec (Z.of_nat (length l + 1) - 1) 0) as [?|_]; [lia|].
  replace (Z.to_nat (Z.of_nat (length l + 1) - 1)) with (length l) by lia.
  by rewrite list_lookup_middle.
Qed.

Lemma Node_iterator_live n s nd a l :
  nodes s !! n = Some nd → children nd = Some a → arrays s !! a = Some l →
  Node_iterator (Some n) s = Ok (NodeIterator_new (Some a)).
Proof.
  intros Hnd Hch Harr. unfold Node_iterator.
  by rewrite (Node_load_live _ _ _ Hnd), bind_Ok, Hch.
Qed.

(** An iterator standing at index [i] of a live container produces the
    elements from [i] on, in order. *)
Lemma NodeIterator_collect_drop s a l :
  arrays s !! a = Some l →
  ∀ fuel i, length l - i < fuel →
    NodeIterator_collect fuel {| it_array := Some a; it_next := i |} s
    = Ok (drop i l).
Proof.
  intros Harr. induction fuel as [|fuel IH]; intros i Hfuel; [lia|].
  simpl. unfold NodeIterator_hasNext, NodeIterator_next, Array_length,
    Array_getObject, Array_load. simpl. rewrite Harr. simpl.
  destruct (Z.ltb_spec (Z.of_nat i) (Z.of_nat (length l))) as [Hlt|Hge].
  - destruct (Z.ltb_spec (Z.of_nat i) 0) as [?|_]; [lia|]. simpl.
    rewrite Nat2Z.id, IH by lia. simpl.
    destruct (lookup_lt_is_Some_2 l i) as [x Hx]; [lia|].
    rewrite Hx. simpl. by rewrite (drop_S _ _ _ Hx).
  - simpl. by rewrite drop_ge by lia.
Qed.

End Construction.

(** ** Trees built by [Node_new] and nested [Node_addChild] calls *)

Section Building.
Context {Token : Type}.
Implicit Types (s : State Token) (t : tree).

Lemma root_tree_add a c t : root (tree_add a c t) = root t.
Proof. by destruct t. Qed.

Lemma tree_add_absent a c t : a ∉ tree_arrays t → tree_add a c t = t.
Proof.
  induction t as [n tk a' kids IH] using tree_ind'.
  unfold tree_arrays. simpl. fold tree_arrays. intros Hnin.
  apply not_elem_of_cons in Hnin as [Hne Hnin].
  rewrite decide_False, app_nil_r by done. f_equal.
  rewrite <- (list_fmap_id kids) at 2. apply list_fmap_ext.
  intros i k Hk. rewrite Forall_forall in IH.
  apply IH; [by eapply list_elem_of_lookup_2|].
  intros Hin. apply Hnin. apply list_elem_of_bind. exists k.
  split; [done|by eapply list_elem_of_lookup_2].
Qed.

Lemma tree_add_absent_all a c (kids : list tree) :
  a ∉ kids ≫= tree_arrays → tree_add a c <$> kids = kids.
Proof.
  intros Hnin. rewrite <- (list_fmap_id kids) at 2. apply list_fmap_ext.
  intros i k Hk. apply tree_add_absent. intros Hin. apply Hnin.
  apply list_elem_of_bind. exists k. split; [done|by eapply list_elem_of_lookup_2].
Qed.

(** Appending below the one Node that owns [a] adds the cells of [c]. *)
Lemma walk_tree_add {A} (f : addr → addr → addr → A) a c t :
  a ∈ tree_arrays t → NoDup (tree_arrays t) →
  walk f (tree_add a c t) ≡ₚ walk f t ++ walk f c.
Proof.
  induction t as [n tk a' kids IH] using tree_ind'.
  unfold tree_arrays. simpl. fold tree_arrays. intros Hin ND.
  apply NoDup_cons in ND as [Hfresh ND].
  destruct (decide (a' = a)) as [->|Hne].
  - rewrite tree_add_absent_all by done.
    by rewrite bind_app, bind_singleton.
  - rewrite app_nil_r. apply elem_of_cons in Hin as [?|Hin]; [congruence|].
    apply Permutation_cons; [done|]. clear Hfresh.
    induction IH as [|k ks Hk _ IHks]; [by apply elem_of_nil in Hin|].
    rewrite fmap_cons, !bind_cons in *.
    apply NoDup_app in ND as (ND1 & ND2 & ND3).
    destruct (decide (a ∈ tree_arrays k)) as [Hk1|Hk1].
    + rewrite tree_add_absent_all by auto.
      rewrite (Hk Hk1 ND1), <- !app_assoc.
      apply Permutation_app_head, Permutation_app_comm.
    + rewrite (tree_add_absent _ _ _ Hk1).
      apply elem_of_app in Hin as [?|Hin]; [done|].
      by rewrite (IHks Hin ND3), app_assoc.
Qed.

Lemma owns_array_live s t p :
  owns s t → p ∈ tree_arrays t → is_Some (arrays s !! p).
Proof.
  induction t as [n tk a kids IH] using tree_ind'.
  intros Hown. inversion Hown as [? ? ? ? nd Hnd Htk Hch Harr Hlive Hkids]; subst.
  unfold tree_arrays. simpl. fold tree_arrays.
  intros [->|Hin]%elem_of_cons; [by eexists|].
  apply list_elem_of_bind in Hin as (k & Hp & Hk).
  rewrite Forall_forall in IH, Hkids. by apply (IH k Hk (Hkids k Hk)).
Qed.

Lemma owns_node_live s t p :
  owns s t → p ∈ tree_nodes t →
  ∃ nd a, nodes s !! p = Some nd ∧ children nd = Some a ∧ a ∈ tree_arrays t.
Proof.
  induction t as [n tk a kids IH] using tree_ind'.
  intros Hown. inversion Hown as [? ? ? ? nd Hnd Htk Hch Harr Hlive Hkids]; subst.
  unfold tree_nodes, tree_arrays. simpl. fold tree_nodes tree_arrays.
  intros [->|Hin]%elem_of_cons.
  { exists nd, a. repeat split; try done. apply elem_of_cons. by left. }
  apply list_elem_of_bind in Hin as (k & Hp & Hk).
  rewrite Forall_forall in IH, Hkids.
  destruct (IH k Hk (Hkids k Hk) Hp) as (nd' & a' & ? & ? & ?).
  exists nd', a'. repeat split; try done.
  apply elem_of_cons. right. apply list_elem_of_bind. eauto.
Qed.

Lemma owns_tree_add s s' t a l c tkc ac :
  owns s t →
  nodes s !! c = None → arrays s !! ac = None →
  arrays s !! a = Some l →
  is_Some (tokens s !! tkc) →
  nodes s' = <[c := {| token := Some tkc; parent := None; children := Some ac |}]> (nodes s) →
  arrays s' = <[a := l ++ [Some c]]> (<[ac := []]> (arrays s)) →
  tokens s' = tokens s →
  owns s' (tree_add a (Tree c tkc ac []) t).
Proof.
  intros Hown Hc Hac Ha Htkc Hnodes Harrays Htokens.
  assert (Hne : ac ≠ a) by (intros ->; congruence).
  induction t as [n tk a' kids IH] using tree_ind'.
  inversion Hown as [? ? ? ? nd Hnd Htk Hch Harr Hlive Hkids]; subst.
  simpl. apply owns_Tree with nd; try done.
  - rewrite Hnodes, lookup_insert_ne; [done|]. intros ->. congruence.
  - assert (Hroots : (λ k, Some (root k)) <$> (tree_add a (Tree c tkc ac []) <$> kids)
                      = (λ k, Some (root k)) <$> kids).
    { rewrite <- list_fmap_compose. apply list_fmap_ext.
      intros i k _. simpl. by rewrite root_tree_add. }
    rewrite fmap_app, Hroots, Harrays. destruct (decide (a' = a)) as [->|Hne'].
    + rewrite lookup_insert_eq. simpl. congruence.
    + rewrite lookup_insert_ne by done.
      rewrite lookup_insert_ne by (intros ->; congruence).
      by rewrite app_nil_r.
  - by rewrite Htokens.
  - apply Forall_app. split.
    + apply Forall_fmap. rewrite Forall_forall in IH, Hkids.
      apply Forall_forall. intros k Hk. simpl. by apply IH, Hkids.
    + destruct (decide (a' = a)); [|done]. apply Forall_singleton.
      eapply owns_Tree; try done.
      * rewrite Hnodes. apply lookup_insert_eq.
      * done.
      * done.
      * rewrite Harrays, lookup_insert_ne, lookup_insert_eq; done.
      * by rewrite Htokens.
Qed.

(** What every built store looks like. *)
Lemma Built_owned r ns ts s :
  Built r ns ts s →
  ∃ t, r = root t ∧ owns s t ∧ separate t
       ∧ ns ≡ₚ tree_nodes t ∧ ts ≡ₚ tree_tokens t.
Proof.
  induction 1 as [s0 tk r h s Hlive Hnew
                 |r ns ts s n tk c h1 s1 h s' _ IH Hn Hlive Htk Hnew Hadd].
  - destruct (Node_new_inv _ _ _ _ _ Hnew) as [(_ & [= ->] & _ & ->)|(_ & ? & _)];
      [|done].
    exists (Tree (fresh (dom (nodes s0))) tk (fresh (dom (arrays s0))) []).
    repeat split; try done.
    + eapply owns_Tree; simpl; try done.
      * apply lookup_insert_eq.
      * done.
      * done.
      * apply lookup_insert_eq.
    + apply NoDup_singleton.
    + apply NoDup_singleton.
    + apply NoDup_singleton.
  - destruct IH as (t & -> & Hown & (NDn & NDt & NDa) & Hns & Hts).
    destruct (Node_new_inv _ _ _ _ _ Hnew) as [(_ & [= ->] & _ & ->)|(_ & ? & _)];
      [|done].
    rewrite Hns in Hn.
    destruct (owns_node_live _ _ _ Hown Hn) as (nd & a & Hnd & Hch & Ha).
    destruct (owns_array_live _ _ _ Hown Ha) as [l Hl].
    destruct (Node_addChild_run _ _ _ _ _ _ Hnd Hch Hl _ _ _ Hnew) as (Hrun & _ & _).
    rewrite Hrun in Hadd. injection Hadd as <- <-.
    set (c := fresh (dom (nodes s))). set (ac := fresh (dom (arrays s))).
    exists (tree_add a (Tree c tk ac []) t).
    assert (Hc : c ∉ tree_nodes t).
    { intros Hin. destruct (owns_node_live _ _ _ Hown Hin) as (? & ? & E & _).
      unfold c in E. by rewrite fresh_node in E. }
    assert (Hac : ac ∉ tree_arrays t).
    { intros Hin. destruct (owns_array_live _ _ _ Hown Hin) as [? E].
      unfold ac in E. by rewrite fresh_array in E. }
    split; [by rewrite root_tree_add|]. split.
    { eapply (owns_tree_add s); try done.
      - apply fresh_node.
      - apply fresh_array. }
    unfold separate, tree_nodes, tree_tokens, tree_arrays in *.
    rewrite !walk_tree_add by done. simpl.
    repeat split.
    + apply NoDup_app. repeat split; [done| |apply NoDup_singleton].
      intros x Hx ->%list_elem_of_singleton. done.
    + apply NoDup_app. repeat split; [done| |apply NoDup_singleton].
      intros x Hx ->%list_elem_of_singleton. apply Htk. by rewrite Hts.
    + apply NoDup_app. repeat split; [done| |apply NoDup_singleton].
      intros x Hx ->%list_elem_of_singleton. done.
    + by rewrite Hns.
    + by rewrite Hts.
Qed.

End Building.

Lemma released_nodes_teardown t : released_nodes (teardown t) ≡ₚ tree_nodes t.
Proof.
  induction t as [n tk a kids IH] using tree_ind'.
  unfold released_nodes, tree_nodes in *. simpl.
  rewrite omap_app. simpl. rewrite Permutation_app_comm. simpl.
  apply Permutation_cons; [done|].
  induction IH as [|k ks Hk _ IHks]; [done|].
  rewrite !bind_cons, omap_app. by apply Permutation_app.
Qed.

Lemma released_tokens_teardown t : released_tokens (teardown t) ≡ₚ tree_tokens t.
Proof.
  induction t as [n tk a kids IH] using tree_ind'.
  unfold released_tokens, tree_tokens in *. simpl.
  rewrite omap_app. simpl. rewrite app_nil_r.
  apply Permutation_cons; [done|].
  induction IH as [|k ks Hk _ IHks]; [done|].
  rewrite !bind_cons, omap_app. by apply Permutation_app.
Qed.

Section Claims.
Context {Token : Type}.
Implicit Types (s : State Token).

(** C1: for every tree built from [Node_new] and nested [Node_addChild]
    calls, every allocation succeeding, one [Node_free] on the root returns,
    and what it released is each Node of the tree once and each Lexical Unit
    moved into the tree once: the released Nodes and Tokens are duplicate-free
    enumerations of the Nodes made and Tokens handed over, none of them is
    live afterwards, and every other Node and Token is as before. *)
Theorem Node_free_releases_once r ns ts s fuel :
  Built r ns ts s →
  2 * length ns ≤ fuel →
  ∃ s' evs,
    Node_free fuel (Some r) s = Ok (None, s') ∧
    log s' = log s ++ evs ∧
    released_nodes evs ≡ₚ ns ∧ NoDup ns ∧
    released_tokens evs ≡ₚ ts ∧ NoDup ts ∧
    (∀ n, nodes s' !! n = if decide (n ∈ ns) then None else nodes s !! n) ∧
    (∀ tk, tokens s' !! tk = if decide (tk ∈ ts) then None else tokens s !! tk).
Proof.
  intros HB Hfuel.
  destruct (Built_owned _ _ _ _ HB) as (t & -> & Hown & Hsep & Hns & Hts).
  destruct (Node_free_teardown t s fuel Hown Hsep) as (s' & Hrun & Hn & _ & Ht & _ & Hl).
  { by rewrite <- Hns. }
  destruct Hsep as (NDn & NDt & _).
  exists s', (teardown t). repeat split; try done.
  - by rewrite released_nodes_teardown.
  - by rewrite Hns.
  - by rewrite released_tokens_teardown.
  - by rewrite Hts.
  - intros n. rewrite Hn. repeat destruct (decide _) as [?Hin|?Hout]; try done.
    + by rewrite <- Hns in Hin.
    + by rewrite Hns in Hin.
  - intros tk. rewrite Ht. repeat destruct (decide _) as [?Hin|?Hout]; try done.
    + by rewrite <- Hts in Hin.
    + by rewrite Hts in Hin.
Qed.

(** C2 (amended): [Node_free] on a Node that owns its subtree returns, and
    its effects come in this order: the Node's own Lexical Unit is released
    first, then every child is destroyed depth-first, front to back, then the
    emptied child container is released, then the parent reference is
    cleared, then the Node's own storage is released. *)
Theorem Node_free_order s t fuel :
  owns s t → separate t →
  2 * length (tree_nodes t) ≤ fuel →
  ∃ s', Node_free fuel (Some (root t)) s = Ok (None, s') ∧
        log s' = log s ++ teardown t.
Proof.
  intros Hown Hsep Hfuel.
  destruct (Node_free_teardown t s fuel Hown Hsep Hfuel) as (s' & Hrun & _ & _ & _ & _ & Hl).
  by exists s'.
Qed.

(** C3: when [Node_new] on a handle to the Lexical Unit [t] succeeds, the
    Token of the new Node is [t], the Tokens themselves are untouched, and
    the caller's handle has been set to null. *)
Theorem Node_new_moves_token t s n h s' :
  Node_new (Some t) s = (Some n, h, s') →
  Node_getToken (Some n) s' = Ok (Some t) ∧ tokens s' = tokens s ∧ h = None.
Proof.
  intros Hnew.
  destruct (Node_new_inv _ _ _ _ _ Hnew) as [(_ & [= ->] & -> & ->)|(_ & ? & _)];
    [|done].
  repeat split. unfold Node_getToken, Node_load. simpl.
  by rewrite lookup_insert_eq.
Qed.

(** C4: a Node fresh from a successful [Node_new] has a live, empty children
    collection: [Node_hasChildren] is false, its iterator produces the empty
    sequence, and its parent reference is null. *)
Theorem Node_new_fresh tok s n h s' :
  Node_new tok s = (Some n, h, s') →
  Node_hasChildren (Some n) s' = Ok false ∧
  (∃ it, Node_iterator (Some n) s' = Ok it
         ∧ ∀ fuel, NodeIterator_collect (S fuel) it s' = Ok []) ∧
  (∃ nd a, nodes s' !! n = Some nd ∧ parent nd = None
           ∧ children nd = Some a ∧ arrays s' !! a = Some []).
Proof.
  intros Hnew.
  destruct (Node_new_inv _ _ _ _ _ Hnew) as [(_ & [= ->] & -> & ->)|(_ & ? & _)];
    [|done].
  set (nd := {| token := tok; parent := None;
                children := Some (fresh (dom (arrays s))) |}).
  assert (Hnd : nodes (constructed tok s) !! fresh (dom (nodes s)) = Some nd)
    by apply lookup_insert_eq.
  assert (Harr : arrays (constructed tok s) !! fresh (dom (arrays s)) = Some [])
    by apply lookup_insert_eq.
  repeat split.
  - by rewrite (Node_hasChildren_live _ _ _ _ _ Hnd eq_refl Harr).
  - eexists. split; [by apply (Node_iterator_live _ _ _ _ _ Hnd eq_refl Harr)|].
    intros fuel. unfold NodeIterator_new.
    rewrite (NodeIterator_collect_drop _ _ _ Harr); [done|simpl; lia].
  - by exists nd, (fresh (dom (arrays s))).
Qed.

(** C5: when [Node_addChild] on a Node with [k] children succeeds in
    constructing the child (the handle comes back null), the Node has
    children, its last child holds the Lexical Unit handed over, and the
    children count is [k + 1]. *)
Theorem Node_addChild_appends n t s k s' :
  Node_childCount (Some n) s = Ok k →
  Node_addChild (Some n) (Some t) s = Ok (None, s') →
  Node_hasChildren (Some n) s' = Ok true ∧
  (∃ c, Node_getLastChild (Some n) s' = Ok (Some c)
        ∧ Node_getToken (Some c) s' = Ok (Some t)) ∧
  Node_childCount (Some n) s' = Ok (k + 1)%Z.
Proof.
  intros (nd & a & l & Hnd & Hch & Harr & ->)%Node_childCount_inv Hadd.
  destruct (Node_new (Some t) s) as [[child h] s1] eqn:Hnew.
  destruct (Node_addChild_run _ _ _ _ _ _ Hnd Hch Harr _ _ _ Hnew) as (Hrun & Hnd1 & _).
  rewrite Hrun in Hadd. injection Hadd as -> <-.
  destruct (Node_new_inv _ _ _ _ _ Hnew) as [(_ & -> & _ & ->)|(_ & _ & ? & _)];
    [|done].
  set (s1 := constructed (Some t) s) in *.
  set (s' := with_arrays _ s1).
  assert (Hnd' : nodes s' !! n = Some nd) by done.
  assert (Harr' : arrays s' !! a = Some (l ++ [Some (fresh (dom (nodes s)))]))
    by apply lookup_insert_eq.
  repeat split.
  - rewrite (Node_hasChildren_live _ _ _ _ _ Hnd' Hch Harr'), length_app. simpl.
    f_equal. apply Z.ltb_lt. lia.
  - exists (fresh (dom (nodes s))). split.
    + by rewrite (Node_getLastChild_live _ _ _ _ _ Hnd' Hch Harr'), last_snoc.
    + unfold Node_getToken, Node_load. simpl. by rewrite lookup_insert_eq.
  - rewrite (Node_childCount_live _ _ _ _ _ Hnd' Hch Harr'), length_app. simpl.
    f_equal. lia.
Qed.

(** C6: [Node_addChild] on a live Node changes no field of any Node that
    was live before the call (the Node's Token, parent and children pointer
    included: only the container behind the pointer grows), the last child
    is the Node it constructed, and that child's parent reference is null. *)
Theorem Node_addChild_parent_unset n nd tok s child h1 s1 h s' :
  nodes s !! n = Some nd →
  Node_new tok s = (child, h1, s1) →
  Node_addChild (Some n) tok s = Ok (h, s') →
  (∀ p, is_Some (nodes s !! p) → nodes s' !! p = nodes s !! p) ∧
  Node_getLastChild (Some n) s' = Ok child ∧
  (∀ c, child = Some c → ∃ ndc, nodes s' !! c = Some ndc ∧ parent ndc = None).
Proof.
  intros Hnd Hnew Hadd.
  assert (Hfr : ∀ p, is_Some (nodes s !! p) → nodes s1 !! p = nodes s !! p).
  { intros p [x Hp].
    destruct (Node_new_inv _ _ _ _ _ Hnew) as [(_ & _ & _ & ->)|(_ & _ & _ & ->)];
      [|done].
    simpl. rewrite lookup_insert_ne; [done|]. intros E.
    pose proof (fresh_node s) as F. rewrite E in F. congruence. }
  assert (Hnd1 : nodes s1 !! n = Some nd) by (rewrite Hfr; [done|by eexists]).
  unfold Node_addChild in Hadd. rewrite Hnew in Hadd.
  rewrite (Node_load_live _ _ _ Hnd1), bind_Ok in Hadd.
  unfold Array_push, Array_load in Hadd.
  destruct (children nd) as [a|] eqn:Hch; [|done].
  destruct (arrays s1 !! a) as [l|] eqn:Harr1; [|done].
  simpl in Hadd. injection Hadd as <- <-.
  repeat split.
  - done.
  - erewrite Node_getLastChild_live; [|exact Hnd1|exact Hch|apply lookup_insert_eq].
    by rewrite last_snoc.
  - intros c ->. simpl.
    destruct (Node_new_inv _ _ _ _ _ Hnew) as [(_ & [= ->] & _ & ->)|(_ & ? & _)];
      [|done].
    eexists. split; [apply lookup_insert_eq|done].
Qed.

(** C7: on a live Node whose children collection holds [l],
    [Node_getLastChild] is the indexed access at count minus one; it is
    null when the collection is empty and the most recently appended
    element otherwise. *)
Theorem Node_getLastChild_last n nd a l s :
  nodes s !! n = Some nd → children nd = Some a → arrays s !! a = Some l →
  Node_getLastChild (Some n) s
  = Array_getObject (Some a) (Z.of_nat (length l) - 1) s ∧
  (l = [] → Node_getLastChild (Some n) s = Ok None) ∧
  (∀ l0 x, l = l0 ++ [x] → Node_getLastChild (Some n) s = Ok x).
Proof.
  intros Hnd Hch Harr. repeat split.
  - unfold Node_getLastChild.
    rewrite (Node_load_live _ _ _ Hnd), bind_Ok, Hch.
    unfold Array_length, Array_load. by rewrite Harr.
  - intros ->. by rewrite (Node_getLastChild_live _ _ _ _ _ Hnd Hch Harr).
  - intros l0 x ->.
    by rewrite (Node_getLastChild_live _ _ _ _ _ Hnd Hch Harr), last_snoc.
Qed.

Lemma tracked_made ch s tok r h s1 :
  tracked ch s → Node_new tok s = (r, h, s1) → tracked (made r ch) s1.
Proof.
  intros [Hlive Hinj] Hnew.
  destruct (Node_new_inv _ _ _ _ _ Hnew) as [(_ & -> & _ & ->)|(_ & -> & _ & ->)];
    [|by split].
  set (c := fresh (dom (nodes s))). set (a0 := fresh (dom (arrays s))).
  assert (Hold : ∀ n cs, ch !! n = Some cs → n ≠ c).
  { intros n cs Hn ->. destruct (Hlive _ _ Hn) as (? & ? & E & _).
    unfold c in E. by rewrite fresh_node in E. }
  assert (Hfar : ∀ n cs nd, ch !! n = Some cs → nodes s !! n = Some nd →
                            children nd ≠ Some a0).
  { intros n cs nd Hn Hnd E. destruct (Hlive _ _ Hn) as (nd' & a & ? & ? & F).
    simplify_eq. unfold a0 in F. by rewrite fresh_array in F. }
  split.
  - intros n cs. simpl. destruct (decide (n = c)) as [->|Hne].
    + rewrite lookup_insert_eq. intros [= <-].
      eexists _, a0. simpl. rewrite !lookup_insert_eq. done.
    + rewrite lookup_insert_ne by done. intros Hn.
      destruct (Hlive _ _ Hn) as (nd & a & Hnd & Hch & Harr).
      exists nd, a. simpl. rewrite !lookup_insert_ne; [done| |done].
      intros <-. by eapply Hfar.
  - intros n m csn csm ndn ndm Hn Hm Hndn Hndm E. simpl in Hn, Hm, Hndn, Hndm.
    fold c a0 in Hndn, Hndm.
    destruct (decide (n = c)) as [->|Hnc]; destruct (decide (m = c)) as [->|Hmc];
      [done|..].
    + rewrite lookup_insert_eq in Hndn. injection Hndn as <-.
      rewrite lookup_insert_ne in Hm by done.
      rewrite lookup_insert_ne in Hndm by done.
      symmetry in E. by destruct (Hfar _ _ _ Hm Hndm E).
    + rewrite lookup_insert_eq in Hndm. injection Hndm as <-.
      rewrite lookup_insert_ne in Hn by done.
      rewrite lookup_insert_ne in Hndn by done.
      by destruct (Hfar _ _ _ Hn Hndn E).
    + rewrite lookup_insert_ne in Hn by done.
      rewrite lookup_insert_ne in Hm by done.
      rewrite lookup_insert_ne in Hndn by done.
      rewrite lookup_insert_ne in Hndm by done.
      by eapply (Hinj n m).
Qed.

Lemma tracked_push ch s m cs nd a c :
  tracked ch s → ch !! m = Some cs →
  nodes s !! m = Some nd → children nd = Some a →
  tracked (<[m := cs ++ [c]]> ch)
          (with_arrays (<[a := cs ++ [c]]> (arrays s)) s).
Proof.
  intros [Hlive Hinj] Hm Hnd Hch. split.
  - intros n csn. simpl. destruct (decide (n = m)) as [->|Hne].
    + rewrite lookup_insert_eq. intros [= <-].
      exists nd, a. by rewrite lookup_insert_eq.
    + rewrite lookup_insert_ne by done. intros Hn.
      destruct (Hlive _ _ Hn) as (ndn & an & Hndn & Hchn & Harrn).
      exists ndn, an. rewrite lookup_insert_ne; [done|].
      intros <-. apply Hne. eapply (Hinj n m); try done. congruence.
  - intros n n' csn csn' ndn ndn' Hn Hn'. simpl.
    assert (is_Some (ch !! n)) as [? ?].
    { destruct (decide (n = m)) as [->|?]; [by eexists|].
      rewrite lookup_insert_ne in Hn by done. by eexists. }
    assert (is_Some (ch !! n')) as [? ?].
    { destruct (decide (n' = m)) as [->|?]; [by eexists|].
      rewrite lookup_insert_ne in Hn' by done. by eexists. }
    by eapply Hinj.
Qed.

Lemma tracked_setParent ch s m p s' :
  tracked ch s → Node_setParent (Some m) p s = Ok s' → tracked ch s'.
Proof.
  intros [Hlive Hinj]. unfold Node_setParent, Node_store.
  destruct (nodes s !! m) as [nd0|] eqn:Hm; [|done]. intros [= <-].
  assert (Hback : ∀ n nd, nodes (with_nodes (<[m := set_parent p nd0]> (nodes s)) s) !! n
                          = Some nd →
                          ∃ nd', nodes s !! n = Some nd' ∧ children nd' = children nd).
  { intros n nd. simpl. destruct (decide (n = m)) as [->|Hne].
    - rewrite lookup_insert_eq. intros [= <-]. by exists nd0.
    - rewrite lookup_insert_ne by done. intros ?. by exists nd. }
  split.
  - intros n cs Hn. destruct (Hlive _ _ Hn) as (nd & a & Hnd & Hch & Harr).
    destruct (decide (n = m)) as [->|Hne].
    + exists (set_parent p nd0), a. simpl. rewrite lookup_insert_eq.
      repeat split; [|done]. congruence.
    + exists nd, a. simpl. by rewrite lookup_insert_ne.
  - intros n n' csn csn' ndn ndn' Hn Hn' Hndn Hndn' E.
    destruct (Hback _ _ Hndn) as (x & Hx & Ex).
    destruct (Hback _ _ Hndn') as (x' & Hx' & Ex').
    eapply (Hinj n n'); try done. congruence.
Qed.

(** Every assembled store holds what the record says. *)
Lemma Assembled_tracked ch s : Assembled ch s → tracked ch s.
Proof.
  induction 1 as [s|ch s tok r h s' _ IH Hnew
                 |ch s m cs tok c h1 s1 h s' _ IH Hm Hnew Hadd
                 |ch s m p s' _ IH Hset].
  - split; intros *; by rewrite lookup_empty.
  - by eapply tracked_made.
  - destruct (proj1 IH _ _ Hm) as (nd & a & Hnd & Hch & Harr).
    destruct (Node_addChild_run _ _ _ _ _ _ Hnd Hch Harr _ _ _ Hnew)
      as (Hrun & Hnd1 & Harr1).
    rewrite Hrun in Hadd. injection Hadd as <- <-.
    pose proof (tracked_made _ _ _ _ _ _ IH Hnew) as Hmade.
    assert (Hm1 : made c ch !! m = Some cs).
    { destruct c as [c|]; [|done]. simpl. rewrite lookup_insert_ne; [done|].
      intros <-.
      destruct (Node_new_inv _ _ _ _ _ Hnew) as [(_ & [= ->] & _)|(_ & ? & _)];
        [|done].
      by rewrite fresh_node in Hnd. }
    by apply (tracked_push _ _ _ _ nd).
  - by eapply tracked_setParent.
Qed.

(** C8: whatever else was built around it, the iterator of a Node with [k]
    appended children produces exactly those children, in the order they
    were appended, and so [k] of them. *)
Theorem Node_iterator_append_order ch s n cs fuel :
  Assembled ch s →
  ch !! n = Some cs →
  length cs < fuel →
  ∃ it, Node_iterator (Some n) s = Ok it ∧
        NodeIterator_collect fuel it s = Ok cs ∧
        ∀ rest, NodeIterator_collect fuel it s = Ok rest → length rest = length cs.
Proof.
  intros [Hlive _]%Assembled_tracked Hn Hfuel.
  destruct (Hlive _ _ Hn) as (nd & a & Hnd & Hch & Harr).
  assert (Hrun : NodeIterator_collect fuel (NodeIterator_new (Some a)) s = Ok cs).
  { unfold NodeIterator_new.
    rewrite (NodeIterator_collect_drop _ _ _ Harr) by lia. done. }
  exists (NodeIterator_new (Some a)). split; [|split].
  - by apply (Node_iterator_live _ _ _ _ _ Hnd Hch Harr).
  - done.
  - intros rest. rewrite Hrun. by intros [= <-].
Qed.

(** C9: when [Node_new] fails, the caller's handle is as it was, and so are
    the Nodes, the containers, the Tokens and the log. *)
Theorem Node_new_failure_keeps_handle tok s h s' :
  Node_new tok s = (None, h, s') →
  h = tok ∧ nodes s' = nodes s ∧ arrays s' = arrays s
  ∧ tokens s' = tokens s ∧ log s' = log s.
Proof.
  intros Hnew.
  by destruct (Node_new_inv _ _ _ _ _ Hnew) as [(_ & ? & _)|(_ & _ & -> & ->)].
Qed.

(** C10: when the allocation inside [Node_addChild] fails, the call still
    completes without reporting anything, the caller keeps its handle, and
    a null child has been appended: the last child is null, the children
    count is one more and [Node_hasChildren] is true. *)
Theorem Node_addChild_alloc_failure n k tok s :
  Node_childCount (Some n) s = Ok k →
  (Platform_Alloc s).1 = None →
  ∃ s', Node_addChild (Some n) tok s = Ok (tok, s') ∧
        Node_getLastChild (Some n) s' = Ok None ∧
        Node_childCount (Some n) s' = Ok (k + 1)%Z ∧
        Node_hasChildren (Some n) s' = Ok true.
Proof.
  intros (nd & a & l & Hnd & Hch & Harr & ->)%Node_childCount_inv Hfail.
  assert (Hor : head (oracle s) ≠ Some true).
  { unfold Platform_Alloc in Hfail. by destruct (oracle s) as [|[] ?]. }
  pose proof (Node_new_refused tok s Hor) as Hnew.
  destruct (Node_addChild_run _ _ _ _ _ _ Hnd Hch Harr _ _ _ Hnew) as (Hrun & Hnd1 & _).
  eexists. split; [exact Hrun|].
  set (s' := with_arrays _ _).
  assert (Hnd' : nodes s' !! n = Some nd) by done.
  assert (Harr' : arrays s' !! a = Some (l ++ [None])) by apply lookup_insert_eq.
  repeat split.
  - by rewrite (Node_getLastChild_live _ _ _ _ _ Hnd' Hch Harr'), last_snoc.
  - rewrite (Node_childCount_live _ _ _ _ _ Hnd' Hch Harr'), length_app. simpl.
    f_equal. lia.
  - rewrite (Node_hasChildren_live _ _ _ _ _ Hnd' Hch Harr'), length_app. simpl.
    f_equal. apply Z.ltb_lt. lia.
Qed.

End Claims.

Lemma ex_store1_new :
  Node_new (Some 10%positive) ex_store0 = (Some 1%positive, None, ex_store1).
Proof. vm_compute. reflexivity. Defined.

Lemma ex_store2_new :
  Node_new (Some 11%positive) ex_store1
  = (Some 2%positive, None, constructed (Some 11%positive) ex_store1).
Proof. vm_compute. reflexivity. Defined.

Lemma ex_store2_addChild :
  Node_addChild (Some 1%positive) (Some 11%positive) ex_store1 = Ok (None, ex_store2).
Proof. vm_compute. reflexivity. Defined.

Lemma ex_store3_new :
  Node_new (Some 12%positive) ex_store2
  = (Some 3%positive, None, constructed (Some 12%positive) ex_store2).
Proof. vm_compute. reflexivity. Defined.

Lemma ex_store3_addChild :
  Node_addChild (Some 2%positive) (Some 12%positive) ex_store2 = Ok (None, ex_store3).
Proof. vm_compute. reflexivity. Defined.

Lemma ex_store3_Built :
  Built 1%positive [1; 2; 3]%positive [10; 11; 12]%positive ex_store3.
Proof.
  apply (Built_addChild 1 [1; 2] [10; 11] ex_store2 2 12 3 None
           (constructed (Some 12%positive) ex_store2) None ex_store3)%positive.
  - apply (Built_addChild 1 [1] [10] ex_store1 1 11 2 None
             (constructed (Some 11%positive) ex_store1) None ex_store2)%positive.
    + apply (Built_construct ex_store0 10 1 None ex_store1)%positive.
      * vm_compute. by eexists.
      * exact ex_store1_new.
    + apply list_elem_of_here.
    + vm_compute. by eexists.
    + intros H%list_elem_of_singleton. discriminate H.
    + exact ex_store2_new.
    + exact ex_store2_addChild.
  - apply list_elem_of_further, list_elem_of_here.
  - vm_compute. by eexists.
  - intros [H|H%list_elem_of_singleton]%elem_of_cons; discriminate H.
  - exact ex_store3_new.
  - exact ex_store3_addChild.
Defined.

Lemma ex_tree2_owned : owns ex_store2 ex_tree2.
Proof.
  apply (owns_Tree _ 1 10 1 [Tree 2 11 2 []]
           {| token := Some 10; parent := None; children := Some 1 |})%positive;
    try (vm_compute; reflexivity).
  - vm_compute. by eexists.
  - apply Forall_singleton.
    apply (owns_Tree _ 2 11 2 []
             {| token := Some 11; parent := None; children := Some 2 |})%positive;
      try (vm_compute; reflexivity).
    + vm_compute. by eexists.
    + apply Forall_nil_2.
Defined.

Lemma ex_tree2_separate : separate ex_tree2.
Proof.
  repeat split; vm_compute; apply NoDup_cons; split;
    try (apply NoDup_singleton);
    intros H%list_elem_of_singleton; discriminate H.
Defined.

(** ** The claims at the worked stores *)

Lemma Node_free_releases_once_witness :
  Built 1%positive [1; 2; 3]%positive [10; 11; 12]%positive ex_store3 ∧
  2 * length [1; 2; 3]%positive ≤ 6 ∧
  ∃ s' evs,
    Node_free 6 (Some 1%positive) ex_store3 = Ok (None, s') ∧
    log s' = log ex_store3 ++ evs ∧
    released_nodes evs ≡ₚ [1; 2; 3]%positive ∧ NoDup [1; 2; 3]%positive ∧
    released_tokens evs ≡ₚ [10; 11; 12]%positive ∧ NoDup [10; 11; 12]%positive ∧
    (∀ n, nodes s' !! n
          = if decide (n ∈ [1; 2; 3]%positive) then None else nodes ex_store3 !! n) ∧
    (∀ tk, tokens s' !! tk
           = if decide (tk ∈ [10; 11; 12]%positive) then None
             else tokens ex_store3 !! tk).
Proof.
  split; [exact ex_store3_Built|]. split; [simpl; lia|].
  apply (Node_free_releases_once 1%positive [1; 2; 3]%positive
           [10; 11; 12]%positive ex_store3 6).
  - exact ex_store3_Built.
  - simpl. lia.
Defined.

Lemma Node_free_order_witness :
  owns ex_store2 ex_tree2 ∧ separate ex_tree2 ∧
  2 * length (tree_nodes ex_tree2) ≤ 4 ∧
  ∃ s', Node_free 4 (Some (root ex_tree2)) ex_store2 = Ok (None, s') ∧
        log s' = log ex_store2 ++ teardown ex_tree2.
Proof.
  split; [exact ex_tree2_owned|]. split; [exact ex_tree2_separate|].
  split; [vm_compute; lia|].
  apply (Node_free_order ex_store2 ex_tree2 4).
  - exact ex_tree2_owned.
  - exact ex_tree2_separate.
  - vm_compute. lia.
Defined.

(** C2 as stated fails: on the root of [ex_store2], which has one child,
    the code releases the root's own Lexical Unit (10) before it destroys the
    child, where the stated order has the child destroyed first. *)
Lemma destroy_order_counterexample :
  owns ex_store2 ex_tree2 ∧ separate ex_tree2 ∧
  ∃ s', Node_free 4 (Some (root ex_tree2)) ex_store2 = Ok (None, s') ∧
        without_arrays (log s')
        = [TokenReleased 10; TokenReleased 11; ParentCleared 2; NodeReleased 2;
           ParentCleared 1; NodeReleased 1]%positive ∧
        destroy_order ex_tree2
        = [TokenReleased 11; ParentCleared 2; NodeReleased 2;
           TokenReleased 10; ParentCleared 1; NodeReleased 1]%positive ∧
        without_arrays (log s') ≠ without_arrays (log ex_store2) ++ destroy_order ex_tree2.
Proof.
  split; [exact ex_tree2_owned|]. split; [exact ex_tree2_separate|].
  eexists. split; [vm_compute; reflexivity|].
  split; [vm_compute; reflexivity|].
  split; [vm_compute; reflexivity|].
  vm_compute. intros H. discriminate H.
Qed.

Lemma Node_new_moves_token_witness :
  Node_new (Some 10%positive) ex_store0 = (Some 1%positive, None, ex_store1) ∧
  Node_getToken (Some 1%positive) ex_store1 = Ok (Some 10%positive) ∧
  tokens ex_store1 = tokens ex_store0 ∧ (None : option positive) = None.
Proof.
  split; [exact ex_store1_new|].
  apply (Node_new_moves_token 10%positive ex_store0 1%positive None ex_store1).
  exact ex_store1_new.
Defined.

Lemma Node_new_fresh_witness :
  Node_new (Some 10%positive) ex_store0 = (Some 1%positive, None, ex_store1) ∧
  Node_hasChildren (Some 1%positive) ex_store1 = Ok false ∧
  (∃ it, Node_iterator (Some 1%positive) ex_store1 = Ok it
         ∧ ∀ fuel, NodeIterator_collect (S fuel) it ex_store1 = Ok []) ∧
  (∃ nd a, nodes ex_store1 !! 1%positive = Some nd ∧ parent nd = None
           ∧ children nd = Some a ∧ arrays ex_store1 !! a = Some []).
Proof.
  split; [exact ex_store1_new|].
  apply (Node_new_fresh (Some 10%positive) ex_store0 1%positive None ex_store1).
  exact ex_store1_new.
Defined.

Lemma Node_addChild_appends_witness :
  Node_childCount (Some 1%positive) ex_store1 = Ok 0%Z ∧
  Node_addChild (Some 1%positive) (Some 11%positive) ex_store1 = Ok (None, ex_store2) ∧
  Node_hasChildren (Some 1%positive) ex_store2 = Ok true ∧
  (∃ c, Node_getLastChild (Some 1%positive) ex_store2 = Ok (Some c)
        ∧ Node_getToken (Some c) ex_store2 = Ok (Some 11%positive)) ∧
  Node_childCount (Some 1%positive) ex_store2 = Ok (0 + 1)%Z.
Proof.
  split; [vm_compute; reflexivity|]. split; [exact ex_store2_addChild|].
  apply (Node_addChild_appends 1%positive 11%positive ex_store1 0%Z ex_store2).
  - vm_compute. reflexivity.
  - exact ex_store2_addChild.
Defined.

Lemma Node_addChild_parent_unset_witness :
  nodes ex_store1 !! 1%positive
  = Some {| token := Some 10%positive; parent := None; children := Some 1%positive |} ∧
  Node_new (Some 11%positive) ex_store1
  = (Some 2%positive, None, constructed (Some 11%positive) ex_store1) ∧
  Node_addChild (Some 1%positive) (Some 11%positive) ex_store1 = Ok (None, ex_store2) ∧
  (∀ p, is_Some (nodes ex_store1 !! p) → nodes ex_store2 !! p = nodes ex_store1 !! p) ∧
  Node_getLastChild (Some 1%positive) ex_store2 = Ok (Some 2%positive) ∧
  (∀ c, Some 2%positive = Some c →
        ∃ ndc, nodes ex_store2 !! c = Some ndc ∧ parent ndc = None).
Proof.
  split; [vm_compute; reflexivity|]. split; [exact ex_store2_new|].
  split; [exact ex_store2_addChild|].
  apply (Node_addChild_parent_unset 1%positive
           {| token := Some 10%positive; parent := None; children := Some 1%positive |}
           (Some 11%positive) ex_store1 (Some 2%positive) None
           (constructed (Some 11%positive) ex_store1) None ex_store2).
  - vm_compute. reflexivity.
  - exact ex_store2_new.
  - exact ex_store2_addChild.
Defined.

Lemma Node_getLastChild_last_witness :
  (arrays ex_store1 !! 1%positive = Some [] ∧
   Node_hasChildren (Some 1%positive) ex_store1 = Ok false ∧
   Node_getLastChild (Some 1%positive) ex_store1
   = Array_getObject (Some 1%positive) (-1) ex_store1 ∧
   Node_getLastChild (Some 1%positive) ex_store1 = Ok None) ∧
  (arrays ex_bush !! 1%positive = Some [Some 2%positive; Some 4%positive] ∧
   Node_getLastChild (Some 1%positive) ex_bush
   = Array_getObject (Some 1%positive) 1 ex_bush ∧
   Node_getLastChild (Some 1%positive) ex_bush = Ok (Some 4%positive)).
Proof.
  destruct (Node_getLastChild_last 1%positive
              {| token := Some 10%positive; parent := None; children := Some 1%positive |}
              1%positive [] ex_store1) as (E1 & E2 & _).
  { vm_compute. reflexivity. }
  { reflexivity. }
  { vm_compute. reflexivity. }
  destruct (Node_getLastChild_last 1%positive
              {| token := Some 10%positive; parent := None; children := Some 1%positive |}
              1%positive [Some 2%positive; Some 4%positive] ex_bush) as (F1 & _ & F3).
  { vm_compute. reflexivity. }
  { reflexivity. }
  { vm_compute. reflexivity. }
  split; [split; [|split; [|split]]|split; [|split]].
  - vm_compute. reflexivity.
  - vm_compute. reflexivity.
  - exact E1.
  - exact (E2 eq_refl).
  - vm_compute. reflexivity.
  - exact F1.
  - exact (F3 [Some 2%positive] (Some 4%positive) eq_refl).
Defined.

Lemma ex_bush_Assembled : Assembled ex_bush_children ex_bush.
Proof.
  unfold ex_bush_children.
  apply (Assembled_addChild _ ex_bush3 1%positive _ (Some 13%positive)
           (Some 4%positive) None (constructed (Some 13%positive) ex_bush3)
           None ex_bush).
  - apply (Assembled_addChild _ ex_bush2 2%positive _ (Some 12%positive)
             (Some 3%positive) None (constructed (Some 12%positive) ex_bush2)
             None ex_bush3).
    + apply (Assembled_addChild _ ex_bush1 1%positive _ (Some 11%positive)
               (Some 2%positive) None (constructed (Some 11%positive) ex_bush1)
               None ex_bush2).
      * apply (Assembled_new ∅ ex_bush0 (Some 10%positive) (Some 1%positive)
                 None ex_bush1).
        -- apply Assembled_start.
        -- vm_compute. reflexivity.
      * vm_compute. reflexivity.
      * vm_compute. reflexivity.
      * vm_compute. reflexivity.
    + vm_compute. reflexivity.
    + vm_compute. reflexivity.
    + vm_compute. reflexivity.
  - vm_compute. reflexivity.
  - vm_compute. reflexivity.
  - vm_compute. reflexivity.
Defined.

Lemma ex_store3_Assembled :
  Assembled (<[2%positive := [] ++ [Some 3%positive]]>
               (made (Some 3%positive)
                  (<[1%positive := [] ++ [Some 2%positive]]>
                     (made (Some 2%positive) (made (Some 1%positive) ∅)))))
            ex_store3.
Proof.
  apply (Assembled_addChild _ ex_store2 2%positive _ (Some 12%positive)
           (Some 3%positive) None (constructed (Some 12%positive) ex_store2)
           None ex_store3).
  - apply (Assembled_addChild _ ex_store1 1%positive _ (Some 11%positive)
             (Some 2%positive) None (constructed (Some 11%positive) ex_store1)
             None ex_store2).
    + apply (Assembled_new ∅ ex_store0 (Some 10%positive) (Some 1%positive)
               None ex_store1).
      * apply Assembled_start.
      * exact ex_store1_new.
    + vm_compute. reflexivity.
    + exact ex_store2_new.
    + exact ex_store2_addChild.
  - vm_compute. reflexivity.
  - exact ex_store3_new.
  - exact ex_store3_addChild.
Defined.

Lemma Node_iterator_append_order_witness :
  (Assembled ex_bush_children ex_bush ∧
   ex_bush_children !! 1%positive = Some [Some 2%positive; Some 4%positive] ∧
   length [Some 2%positive; Some 4%positive] < 3 ∧
   ∃ it, Node_iterator (Some 1%positive) ex_bush = Ok it ∧
         NodeIterator_collect 3 it ex_bush = Ok [Some 2%positive; Some 4%positive] ∧
         ∀ rest, NodeIterator_collect 3 it ex_bush = Ok rest →
                 length rest = length [Some 2%positive; Some 4%positive]) ∧
  (∃ it, Node_iterator (Some 1%positive) ex_store3 = Ok it ∧
         NodeIterator_collect 2 it ex_store3 = Ok [Some 2%positive] ∧
         ∀ rest, NodeIterator_collect 2 it ex_store3 = Ok rest →
                 length rest = length [Some 2%positive]).
Proof.
  split.
  - split; [exact ex_bush_Assembled|]. split; [vm_compute; reflexivity|].
    split; [simpl; lia|].
    apply (Node_iterator_append_order ex_bush_children ex_bush 1%positive
             [Some 2%positive; Some 4%positive] 3).
    + exact ex_bush_Assembled.
    + vm_compute. reflexivity.
    + simpl. lia.
  - apply (Node_iterator_append_order _ ex_store3 1%positive [Some 2%positive] 2
             ex_store3_Assembled).
    + vm_compute. reflexivity.
    + simpl. lia.
Defined.

Lemma Node_new_failure_keeps_handle_witness :
  Node_new (Some 10%positive) ex_store0_full
  = (None, Some 10%positive, with_oracle [] ex_store0) ∧
  Some 10%positive = Some 10%positive ∧
  nodes (with_oracle [] ex_store0) = nodes ex_store0_full ∧
  arrays (with_oracle [] ex_store0) = arrays ex_store0_full ∧
  tokens (with_oracle [] ex_store0) = tokens ex_store0_full ∧
  log (with_oracle [] ex_store0) = log ex_store0_full.
Proof.
  split; [vm_compute; reflexivity|].
  apply (Node_new_failure_keeps_handle (Some 10%positive) ex_store0_full
           (Some 10%positive) (with_oracle [] ex_store0)).
  vm_compute. reflexivity.
Defined.

Lemma Node_addChild_alloc_failure_witness :
  Node_childCount (Some 1%positive) ex_store1_full = Ok 0%Z ∧
  (Platform_Alloc ex_store1_full).1 = None ∧
  ∃ s', Node_addChild (Some 1%positive) (Some 11%positive) ex_store1_full
        = Ok (Some 11%positive, s') ∧
        Node_getLastChild (Some 1%positive) s' = Ok None ∧
        Node_childCount (Some 1%positive) s' = Ok (0 + 1)%Z ∧
        Node_hasChildren (Some 1%positive) s' = Ok true.
Proof.
  split; [vm_compute; reflexivity|]. split; [vm_compute; reflexivity|].
  apply (Node_addChild_alloc_failure 1%positive 0%Z (Some 11%positive) ex_store1_full).
  - vm_compute. reflexivity.
  - vm_compute. reflexivity.
Defined.

(** * Further properties of Node.c *)

Section Further.
Context {Token : Type}.
Implicit Types (s : State Token) (t : tree).

(** The loop of [Node_free] over a front of owned children: once they are
    destroyed the loop stands before the rest of the container. *)
Lemma Node_free_children_prefix kids :
  ∀ s f n nd a rest,
    nodes s !! n = Some nd → children nd = Some a →
    arrays s !! a = Some (((λ k, Some (root k)) <$> kids) ++ rest) →
    Forall (owns s) kids →
    NoDup (kids ≫= tree_nodes) → NoDup (kids ≫= tree_tokens) →
    NoDup (kids ≫= tree_arrays) →
    n ∉ kids ≫= tree_nodes → a ∉ kids ≫= tree_arrays →
    2 * length (kids ≫= tree_nodes) ≤ f →
    ∃ s1, Node_free_children (length kids + f) (Some n) s
          = Node_free_children f (Some n) s1 ∧
          released (kids ≫= tree_nodes) (kids ≫= tree_arrays) (kids ≫= tree_tokens)
                   (kids ≫= teardown) (with_arrays (<[a := rest]> (arrays s)) s) s1.
Proof.
  induction kids as [|k ks IH];
    intros s f n nd a rest Hnd Hch Harr Hown NDn NDt NDa Hn Ha Hfuel.
  - exists s. split; [done|].
    repeat split; simpl; try done.
    + intros p. rewrite insert_id; done.
    + by rewrite app_nil_r.
  - rewrite !bind_cons in *.
    apply NoDup_app in NDn as (NDn1 & NDn2 & NDn3).
    apply NoDup_app in NDt as (NDt1 & NDt2 & NDt3).
    apply NoDup_app in NDa as (NDa1 & NDa2 & NDa3).
    apply not_elem_of_app in Hn as [Hn1 Hn2].
    apply not_elem_of_app in Ha as [Ha1 Ha2].
    rewrite length_app in Hfuel.
    apply Forall_cons in Hown as [Hownk Hownks].
    rewrite fmap_cons in Harr. simpl in Harr.
    set (s1 := with_arrays (<[a := ((λ k, Some (root k)) <$> ks) ++ rest]> (arrays s)) s).
    assert (Hown1 : owns s1 k).
    { apply (owns_agree s); [done|done| |done].
      intros p Hp. simpl. rewrite lookup_insert_ne; [done|]. by intros ->. }
    destruct (Node_free_teardown k s1 (length ks + f) Hown1)
      as (s2 & Hrun & Hn2' & Ha2' & Ht2' & Ho2 & Hl2).
    { done. }
    { lia. }
    destruct (IH s2 f n nd a rest) as (s3 & Hrun3 & Hn3' & Ha3' & Ht3' & Ho3 & Hl3).
    { rewrite Hn2'. by rewrite decide_False. }
    { done. }
    { rewrite Ha2'. rewrite decide_False by done. simpl. by rewrite lookup_insert_eq. }
    { rewrite Forall_forall in Hownks. apply Forall_forall. intros k' Hk'.
      apply (owns_agree s); [by apply Hownks|..]; intros p Hp.
      - rewrite Hn2'. rewrite decide_False; [done|].
        intros Hin. apply (NDn2 p Hin). apply list_elem_of_bind. eauto.
      - rewrite Ha2'. rewrite decide_False.
        + simpl. rewrite lookup_insert_ne; [done|]. intros ->.
          apply Ha2. apply list_elem_of_bind. eauto.
        + intros Hin. apply (NDa2 p Hin). apply list_elem_of_bind. eauto.
      - rewrite Ht2'. rewrite decide_False; [done|].
        intros Hin. apply (NDt2 p Hin). apply list_elem_of_bind. eauto. }
    { done. } { done. } { done. } { done. } { done. }
    { lia. }
    exists s3. split.
    + simpl length. rewrite Nat.add_succ_l.
      rewrite Node_free_children_unfold, (Node_load_live _ _ _ Hnd), bind_Ok, Hch.
      rewrite (Array_shift_front _ _ _ _ Harr), bind_Ok. fold s1.
      rewrite Hrun, bind_Ok. done.
    + repeat split.
      * intros p. rewrite Hn3', Hn2'. simpl. by_cases.
      * intros p. rewrite Ha3'. simpl.
        destruct (decide (p = a)) as [->|Hne].
        -- rewrite !lookup_insert_eq. by_cases.
        -- rewrite !lookup_insert_ne by done. rewrite Ha2'. simpl.
           rewrite lookup_insert_ne by done. by_cases.
      * intros p. rewrite Ht3', Ht2'. simpl. by_cases.
      * rewrite Ho3. simpl. by rewrite Ho2.
      * rewrite Hl3. simpl. rewrite Hl2. simpl. by rewrite app_assoc.
Qed.

Lemma kids_length (kids : list tree) : length kids ≤ length (kids ≫= tree_nodes).
Proof.
  induction kids as [|k ks IH]; [done|].
  rewrite bind_cons, length_app. destruct k. simpl. lia.
Qed.

(** X1: when the children container of a Node holds a null element (what a
    failed construction inside [Node_addChild] leaves behind), the loop of
    [Node_free] ends at it: the Node, its Token, its container and the
    children in front of the null are released as usual, and nothing listed
    after the null is destroyed; those Nodes stay as they were. *)
Theorem Node_free_stops_at_null s n nd tk a kids rest fuel :
  nodes s !! n = Some nd → token nd = Some tk → children nd = Some a →
  is_Some (tokens s !! tk) →
  arrays s !! a = Some (((λ k, Some (root k)) <$> kids) ++ None :: rest) →
  Forall (owns s) kids → separate (Tree n tk a kids) →
  3 * length (tree_nodes (Tree n tk a kids)) ≤ fuel →
  ∃ s', Node_free fuel (Some n) s = Ok (None, s') ∧
        released (tree_nodes (Tree n tk a kids)) (tree_arrays (Tree n tk a kids))
                 (tree_tokens (Tree n tk a kids)) (teardown (Tree n tk a kids)) s s' ∧
        ∀ c, Some c ∈ rest → c ∉ tree_nodes (Tree n tk a kids) →
             nodes s' !! c = nodes s !! c.
Proof.
  intros Hnd Htk Hch Hlive Harr Hkids (NDn & NDt & NDa) Hfuel.
  unfold tree_nodes, tree_tokens, tree_arrays in *. simpl in *.
  fold tree_nodes tree_tokens tree_arrays in *.
  apply NoDup_cons in NDn as [Hn NDn].
  apply NoDup_cons in NDt as [Ht NDt].
  apply NoDup_cons in NDa as [Ha NDa].
  pose proof (kids_length kids) as Hlen.
  destruct fuel as [|fuel]; [lia|].
  destruct (Nat.le_exists_sub (length kids + 1) fuel) as (f & -> & _); [lia|].
  replace (f + (length kids + 1)) with (length kids + S f) by lia.
  set (s1 := emit (TokenReleased tk) (with_tokens (delete tk (tokens s)) s)).
  set (s2 := with_nodes (<[n := set_token None nd]> (nodes s1)) s1).
  destruct (Node_free_children_prefix kids s2 (S f) n (set_token None nd) a (None :: rest))
    as (s3 & Hrun & Hn3 & Ha3 & Ht3 & Ho3 & Hl3).
  { simpl. by rewrite lookup_insert_eq. }
  { done. }
  { done. }
  { rewrite Forall_forall in Hkids. apply Forall_forall. intros k Hk.
    apply (owns_agree s); [by apply Hkids|..]; intros p Hp; simpl.
    - rewrite lookup_insert_ne; [done|]. intros <-.
      apply Hn. apply list_elem_of_bind. eauto.
    - done.
    - rewrite lookup_delete_ne; [done|]. intros <-.
      apply Ht. apply list_elem_of_bind. eauto. }
  { done. } { done. } { done. } { done. } { done. }
  { lia. }
  simpl in Hn3, Ha3, Ht3, Ho3, Hl3.
  assert (Hnd3 : nodes s3 !! n = Some (set_token None nd)).
  { rewrite Hn3. rewrite decide_False by done. by rewrite lookup_insert_eq. }
  assert (Harr3 : arrays s3 !! a = Some (None :: rest)).
  { rewrite Ha3. rewrite decide_False by done. by rewrite lookup_insert_eq. }
  set (s3' := with_arrays (<[a := rest]> (arrays s3)) s3).
  assert (Harr3' : arrays s3' !! a = Some rest) by apply lookup_insert_eq.
  set (s4 := emit (ArrayReleased a) (with_arrays (delete a (arrays s3')) s3')).
  set (s5 := with_nodes (<[n := set_children None (set_token None nd)]> (nodes s4)) s4).
  set (s6 := with_nodes
               (<[n := set_parent None (set_children None (set_token None nd))]>
                  (nodes s5)) s5).
  assert (Hrel : released (n :: kids ≫= tree_nodes) (a :: kids ≫= tree_arrays)
                   (tk :: kids ≫= tree_tokens)
                   (TokenReleased tk :: (kids ≫= teardown)
                      ++ [ArrayReleased a; ParentCleared n; NodeReleased n]) s
                   (emit (NodeReleased n)
                      (with_nodes (delete n (nodes (emit (ParentCleared n) s6)))
                         (emit (ParentCleared n) s6)))).
  { repeat split; simpl.
    + intros p. destruct (decide (p = n)) as [->|Hne].
      * rewrite lookup_delete_eq. by_cases.
      * rewrite lookup_delete_ne, !lookup_insert_ne by done.
        rewrite Hn3, lookup_insert_ne by done. by_cases.
    + intros p. destruct (decide (p = a)) as [->|Hne].
      * rewrite lookup_delete_eq. by_cases.
      * rewrite lookup_delete_ne, lookup_insert_ne by done. rewrite Ha3.
        rewrite lookup_insert_ne by done. by_cases.
    + intros p. rewrite Ht3. destruct (decide (p = tk)) as [->|Hne].
      * rewrite lookup_delete_eq. by_cases.
      * rewrite lookup_delete_ne by done. by_cases.
    + done.
    + rewrite Hl3. by rewrite <- !app_assoc. }
  eexists. split; [|split; [exact Hrel|]].
  - rewrite Node_free_unfold, (Node_load_live _ _ _ Hnd), bind_Ok, Htk.
    rewrite (Token_free_live _ _ Hlive), bind_Ok. fold s1.
    rewrite (Node_store_live s1 n nd) by done. rewrite bind_Ok. fold s2.
    rewrite Hrun, Node_free_children_unfold.
    rewrite (Node_load_live _ _ _ Hnd3), bind_Ok. simpl children. rewrite Hch.
    rewrite (Array_shift_front _ _ _ _ Harr3), bind_Ok, bind_Ok. fold s3'.
    rewrite (Node_load_live s3' n (set_token None nd)) by done.
    rewrite bind_Ok. simpl children. rewrite Hch.
    rewrite (Array_free_live _ _ _ Harr3'), bind_Ok. fold s4.
    rewrite (Node_store_live s4 n (set_token None nd)) by done.
    rewrite bind_Ok. fold s5.
    rewrite (Node_store_live s5 n (set_children None (set_token None nd)))
      by (simpl; by rewrite lookup_insert_eq).
    rewrite bind_Ok. fold s6.
    rewrite (Platform_Free_live _ n (set_parent None (set_children None (set_token None nd))))
      by (simpl; by rewrite lookup_insert_eq).
    reflexivity.
  - intros c _ Hc. destruct Hrel as (Hn' & _). rewrite Hn'.
    by rewrite decide_False.
Qed.

Lemma root_in_nodes t : root t ∈ tree_nodes t.
Proof. destruct t. apply list_elem_of_here. Qed.

(** The cells of one child are apart from its parent and its siblings. *)
Lemma separate_child n tk a kids1 k kids2 :
  separate (Tree n tk a (kids1 ++ k :: kids2)) →
  separate k ∧
  (n ∉ tree_nodes k) ∧ (tk ∉ tree_tokens k) ∧ (a ∉ tree_arrays k) ∧
  separate (Tree n tk a kids1) ∧
  (∀ p, p ∈ tree_nodes k → p ∉ kids1 ≫= tree_nodes) ∧
  (∀ p, p ∈ tree_tokens k → p ∉ kids1 ≫= tree_tokens) ∧
  (∀ p, p ∈ tree_arrays k → p ∉ kids1 ≫= tree_arrays).
Proof.
  intros (NDn & NDt & NDa).
  unfold separate, tree_nodes, tree_tokens, tree_arrays in *. simpl in *.
  rewrite !bind_app, !bind_cons in *.
  apply NoDup_cons in NDn as [Hn NDn].
  apply NoDup_cons in NDt as [Ht NDt].
  apply NoDup_cons in NDa as [Ha NDa].
  apply NoDup_app in NDn as (NDn1 & NDn2 & (NDn3 & _ & _)%NoDup_app).
  apply NoDup_app in NDt as (NDt1 & NDt2 & (NDt3 & _ & _)%NoDup_app).
  apply NoDup_app in NDa as (NDa1 & NDa2 & (NDa3 & _ & _)%NoDup_app).
  rewrite !not_elem_of_app in Hn, Ht, Ha.
  repeat split; try tauto.
  - apply NoDup_cons. tauto.
  - apply NoDup_cons. tauto.
  - apply NoDup_cons. tauto.
  - intros p Hp Hp1. apply (NDn2 p Hp1). apply elem_of_app. by left.
  - intros p Hp Hp1. apply (NDt2 p Hp1). apply elem_of_app. by left.
  - intros p Hp Hp1. apply (NDa2 p Hp1). apply elem_of_app. by left.
Qed.

(** X2: [Node_free] on a child does not take the child out of its parent's
    container: after destroying a child directly, the parent is as it was
    and its container still lists the address of the released Node. *)
Theorem Node_free_child_stays_listed s n tk a kids1 k kids2 fuel :
  owns s (Tree n tk a (kids1 ++ k :: kids2)) →
  separate (Tree n tk a (kids1 ++ k :: kids2)) →
  2 * length (tree_nodes k) ≤ fuel →
  ∃ s1, Node_free fuel (Some (root k)) s = Ok (None, s1) ∧
        nodes s1 !! root k = None ∧
        nodes s1 !! n = nodes s !! n ∧
        arrays s1 !! a
        = Some ((λ k, Some (root k)) <$> (kids1 ++ k :: kids2)) ∧
        Node_childCount (Some n) s1 = Node_childCount (Some n) s.
Proof.
  intros Hown Hsep Hfuel.
  destruct (separate_child _ _ _ _ _ _ Hsep) as (Hsepk & Hn & _ & Ha & _).
  inversion Hown as [? ? ? ? nd Hnd Htk Hch Harr Hlive Hkids]; subst.
  apply Forall_app in Hkids as [_ [Hk _]%Forall_cons].
  destruct (Node_free_teardown k s fuel Hk Hsepk Hfuel)
    as (s1 & Hrun & Hn1 & Ha1 & _).
  assert (Hnd1 : nodes s1 !! n = Some nd) by (by rewrite Hn1, decide_False).
  assert (Harr1 : arrays s1 !! a = Some ((λ k, Some (root k)) <$> (kids1 ++ k :: kids2)))
    by (by rewrite Ha1, decide_False).
  exists s1. repeat split; try done.
  - rewrite Hn1, decide_True; [done|apply root_in_nodes].
  - congruence.
  - rewrite (Node_childCount_live _ _ _ _ _ Hnd1 Hch Harr1).
    by rewrite (Node_childCount_live _ _ _ _ _ Hnd Hch Harr).
Qed.

(** X3: so a [Node_free] on the parent after a [Node_free] on one of its
    children goes wrong: the loop reaches the released child again and
    [Node_free] reads its storage. *)
Theorem Node_free_parent_after_child s n tk a kids1 k kids2 fuel h s1 fuel' :
  owns s (Tree n tk a (kids1 ++ k :: kids2)) →
  separate (Tree n tk a (kids1 ++ k :: kids2)) →
  2 * length (tree_nodes k) ≤ fuel →
  Node_free fuel (Some (root k)) s = Ok (h, s1) →
  3 * length (tree_nodes (Tree n tk a kids1)) ≤ fuel' →
  Node_free fuel' (Some n) s1 = Fault.
Proof.
  intros Hown Hsep Hfuel Hfree Hfuel'.
  destruct (separate_child _ _ _ _ _ _ Hsep)
    as (Hsepk & Hnk & Htkk & Hak & (NDn & NDt & NDa) & Dn & Dt & Da).
  inversion Hown as [? ? ? ? nd Hnd Htk Hch Harr Hlive Hkids]; subst.
  apply Forall_app in Hkids as [Hkids1 [Hk _]%Forall_cons].
  destruct (Node_free_teardown k s fuel Hk Hsepk Hfuel)
    as (s1' & Hrun & Hn1 & Ha1 & Ht1 & _).
  rewrite Hrun in Hfree. injection Hfree as <- <-.
  unfold tree_nodes, tree_tokens, tree_arrays in NDn, NDt, NDa, Hfuel'.
  simpl in NDn, NDt, NDa, Hfuel'.
  fold tree_nodes tree_tokens tree_arrays in NDn, NDt, NDa, Hfuel'.
  apply NoDup_cons in NDn as [Hn NDn].
  apply NoDup_cons in NDt as [Ht NDt].
  apply NoDup_cons in NDa as [Ha NDa].
  pose proof (kids_length kids1) as Hlen.
  assert (Hnd1 : nodes s1' !! n = Some nd) by (by rewrite Hn1, decide_False).
  assert (Hlive1 : is_Some (tokens s1' !! tk)) by (by rewrite Ht1, decide_False).
  assert (Hgone : nodes s1' !! root k = None).
  { rewrite Hn1, decide_True; [done|apply root_in_nodes]. }
  assert (Hrk : root k ≠ n).
  { intros E. apply Hnk. rewrite <- E. apply root_in_nodes. }
  destruct fuel' as [|fuel']; [lia|].
  destruct (Nat.le_exists_sub (length kids1 + 2) fuel') as (f & -> & _); [lia|].
  replace (f + (length kids1 + 2)) with (length kids1 + S (S f)) by lia.
  set (s2 := emit (TokenReleased tk) (with_tokens (delete tk (tokens s1')) s1')).
  set (s3 := with_nodes (<[n := set_token None nd]> (nodes s2)) s2).
  destruct (Node_free_children_prefix kids1 s3 (S (S f)) n (set_token None nd) a
              (Some (root k) :: ((λ k, Some (root k)) <$> kids2)))
    as (s4 & Hrun4 & Hn4 & Ha4 & _).
  { simpl. by rewrite lookup_insert_eq. }
  { done. }
  { simpl. rewrite Ha1, decide_False by done.
    by rewrite Harr, fmap_app, fmap_cons. }
  { rewrite Forall_forall in Hkids1. apply Forall_forall. intros k' Hk'.
    apply (owns_agree s); [by apply Hkids1|..]; intros p Hp; simpl.
    - rewrite lookup_insert_ne.
      + rewrite Hn1, decide_False; [done|]. intros Hin.
        apply (Dn p Hin). apply list_elem_of_bind. eauto.
      + intros <-. apply Hn. apply list_elem_of_bind. eauto.
    - rewrite Ha1, decide_False; [done|]. intros Hin.
      apply (Da p Hin). apply list_elem_of_bind. eauto.
    - rewrite lookup_delete_ne.
      + rewrite Ht1, decide_False; [done|]. intros Hin.
        apply (Dt p Hin). apply list_elem_of_bind. eauto.
      + intros <-. apply Ht. apply list_elem_of_bind. eauto. }
  { done. } { done. } { done. } { done. } { done. }
  { lia. }
  simpl in Hn4, Ha4.
  assert (Hnd4 : nodes s4 !! n = Some (set_token None nd)).
  { rewrite Hn4. rewrite decide_False by done. by rewrite lookup_insert_eq. }
  assert (Harr4 : arrays s4 !! a
                  = Some (Some (root k) :: ((λ k, Some (root k)) <$> kids2))).
  { rewrite Ha4. rewrite decide_False by done. by rewrite lookup_insert_eq. }
  assert (Hgone4 : nodes s4 !! root k = None).
  { rewrite Hn4. destruct (decide _); [done|].
    by rewrite lookup_insert_ne. }
  rewrite Node_free_unfold, (Node_load_live _ _ _ Hnd1), bind_Ok, Htk.
  rewrite (Token_free_live _ _ Hlive1), bind_Ok. fold s2.
  rewrite (Node_store_live s2 n nd) by done. rewrite bind_Ok. fold s3.
  rewrite Hrun4, Node_free_children_unfold.
  rewrite (Node_load_live _ _ _ Hnd4), bind_Ok. simpl children. rewrite Hch.
  rewrite (Array_shift_front _ _ _ _ Harr4), bind_Ok.
  set (s5 := with_arrays _ s4).
  assert (Hdead : Node_load (Some (root k)) s5 = Fault).
  { unfold Node_load. simpl. by rewrite Hgone4. }
  rewrite Node_free_unfold, Hdead. reflexivity.
Qed.

(** *** Cells of an owned tree *)

Lemma walk_fmap {A B} (g : A → B) (f : addr → addr → addr → A) t :
  g <$> walk f t = walk (λ n tk a, g (f n tk a)) t.
Proof.
  induction t as [n tk a kids IH] using tree_ind'. simpl. f_equal.
  induction IH as [|k ks Hk _ IHks]; [done|].
  rewrite !bind_cons, fmap_app. by f_equal.
Qed.

Lemma walk_length {A B} (f : addr → addr → addr → A) (g : addr → addr → addr → B) t :
  length (walk f t) = length (walk g t).
Proof.
  induction t as [n tk a kids IH] using tree_ind'. simpl. f_equal.
  induction IH as [|k ks Hk _ IHks]; [done|].
  rewrite !bind_cons, !length_app. by f_equal.
Qed.

Lemma owns_cell s t n tk a :
  owns s t → (n, tk, a) ∈ tree_cells t →
  ∃ nd kids, nodes s !! n = Some nd ∧ token nd = Some tk ∧ children nd = Some a
             ∧ arrays s !! a = Some ((λ k, Some (root k)) <$> kids)
             ∧ is_Some (tokens s !! tk)
             ∧ (∀ k, k ∈ kids → root k ∈ tree_nodes t)
             ∧ (NoDup (tree_nodes t) → n ∉ kids ≫= tree_nodes).
Proof.
  induction t as [n0 tk0 a0 kids IH] using tree_ind'.
  intros Hown. inversion Hown as [? ? ? ? nd Hnd Htk Hch Harr Hlive Hkids]; subst.
  unfold tree_cells, tree_nodes. simpl. fold tree_cells tree_nodes.
  intros [[= -> -> ->]|Hin]%elem_of_cons.
  - exists nd, kids. repeat split; try done.
    + intros k Hk. apply elem_of_cons. right. apply list_elem_of_bind.
      exists k. split; [apply root_in_nodes|done].
    + by intros [? _]%NoDup_cons.
  - apply list_elem_of_bind in Hin as (k & Hc & Hk).
    rewrite Forall_forall in IH, Hkids.
    destruct (IH k Hk (Hkids k Hk) Hc) as (nd' & kids' & ? & ? & ? & ? & ? & Hsub & Hnd').
    exists nd', kids'. repeat split; try done.
    + intros k' Hk'. apply elem_of_cons. right. apply list_elem_of_bind.
      exists k. split; [by apply Hsub|done].
    + intros [_ ND]%NoDup_cons. apply Hnd'.
      apply list_elem_of_split in Hk as (l1 & l2 & ->).
      rewrite bind_app, bind_cons in ND.
      by apply NoDup_app in ND as (_ & _ & (? & _)%NoDup_app).
Qed.

Lemma node_cell t n : n ∈ tree_nodes t → ∃ tk a, (n, tk, a) ∈ tree_cells t.
Proof.
  unfold tree_nodes, tree_cells.
  rewrite <- (walk_fmap (λ c, c.1.1) (λ n tk a, (n, tk, a))).
  intros ([[n' tk] a] & -> & Hin)%list_elem_of_fmap. by exists tk, a.
Qed.

Lemma cell_token t n tk a : (n, tk, a) ∈ tree_cells t → tk ∈ tree_tokens t.
Proof.
  intros Hin. unfold tree_tokens, tree_cells in *.
  rewrite <- (walk_fmap (λ c, c.1.2) (λ n tk a, (n, tk, a))).
  by apply (list_elem_of_fmap_2 (λ c : addr * addr * addr, c.1.2)) in Hin.
Qed.

Lemma NoDup_fmap_same {A B} (f : A → B) (l : list A) x y :
  NoDup (f <$> l) → x ∈ l → y ∈ l → f x = f y → x = y.
Proof.
  induction l as [|z l IH]; [by intros _ ?%elem_of_nil|].
  rewrite fmap_cons. intros [Hz ND]%NoDup_cons.
  intros [->|Hx]%elem_of_cons [->|Hy]%elem_of_cons E; try done.
  - exfalso. apply Hz. rewrite E. by apply list_elem_of_fmap_2.
  - exfalso. apply Hz. rewrite <- E. by apply list_elem_of_fmap_2.
  - by apply IH.
Qed.

(** In a separate tree a container belongs to one Node only, and so does a
    Token. *)
Lemma cell_array_inj t n tk a m tk' :
  NoDup (tree_arrays t) →
  (n, tk, a) ∈ tree_cells t → (m, tk', a) ∈ tree_cells t → n = m.
Proof.
  unfold tree_arrays, tree_cells.
  rewrite <- (walk_fmap (λ c, c.2) (λ n tk a, (n, tk, a))).
  intros ND Hn Hm.
  by injection (NoDup_fmap_same _ _ _ _ ND Hn Hm eq_refl).
Qed.

Lemma cell_token_inj t n tk a m a' :
  NoDup (tree_tokens t) →
  (n, tk, a) ∈ tree_cells t → (m, tk, a') ∈ tree_cells t → n = m.
Proof.
  unfold tree_tokens, tree_cells.
  rewrite <- (walk_fmap (λ c, c.1.2) (λ n tk a, (n, tk, a))).
  intros ND Hn Hm.
  by injection (NoDup_fmap_same _ _ _ _ ND Hn Hm eq_refl).
Qed.

(** [Node_setParent] leaves the layout of every tree as it is. *)
Lemma owns_setParent s t n p s1 :
  owns s t → Node_setParent (Some n) p s = Ok s1 → owns s1 t.
Proof.
  unfold Node_setParent, Node_store.
  destruct (nodes s !! n) as [nd0|] eqn:Hn0; [|done]. intros Hown [= <-].
  induction t as [n' tk a kids IH] using tree_ind'.
  inversion Hown as [? ? ? ? nd Hnd Htk Hch Harr Hlive Hkids]; subst.
  destruct (decide (n' = n)) as [->|Hne].
  - apply owns_Tree with (set_parent p nd0); simpl; try done.
    + apply lookup_insert_eq.
    + congruence.
    + congruence.
    + rewrite Forall_forall in IH, Hkids. apply Forall_forall.
      intros k Hk. by apply IH, Hkids.
  - apply owns_Tree with nd; simpl; try done.
    + by rewrite lookup_insert_ne.
    + rewrite Forall_forall in IH, Hkids. apply Forall_forall.
      intros k Hk. by apply IH, Hkids.
Qed.

(** X4: the parent reference plays no part in destruction: after
    [Node_setParent] on a Node of an owned tree, with any pointer at all
    (null, dangling, the Node itself, one of its own descendants),
    [Node_free] on the root returns and releases exactly what it would have
    released without the call, in the same order. *)
Theorem Node_setParent_teardown s t n p s1 fuel :
  owns s t → separate t → n ∈ tree_nodes t →
  Node_setParent (Some n) p s = Ok s1 →
  2 * length (tree_nodes t) ≤ fuel →
  (∃ nd, nodes s !! n = Some nd ∧ nodes s1 !! n = Some (set_parent p nd)) ∧
  ∃ s', Node_free fuel (Some (root t)) s1 = Ok (None, s') ∧
        released (tree_nodes t) (tree_arrays t) (tree_tokens t) (teardown t) s s'.
Proof.
  intros Hown Hsep Hn Hset Hfuel.
  pose proof (owns_setParent _ _ _ _ _ Hown Hset) as Hown1.
  destruct (Node_free_teardown t s1 fuel Hown1 Hsep Hfuel)
    as (s' & Hrun & Hn' & Ha' & Ht' & Ho' & Hl').
  unfold Node_setParent, Node_store in Hset.
  destruct (nodes s !! n) as [nd|] eqn:Hnd; [|done]. injection Hset as <-.
  split.
  - exists nd. split; [done|]. simpl. apply lookup_insert_eq.
  - exists s'. split; [done|]. repeat split; try done.
    intros q. rewrite Hn'. simpl. destruct (decide _) as [|Hout]; [done|].
    rewrite lookup_insert_ne; [done|]. by intros <-.
Qed.

(** X5: construct then destroy is a round trip on the store: after
    [Node_new] on a live Token and [Node_free] on the result, the Nodes and
    the containers are exactly those from before the two calls, and the
    Tokens are those from before without the one handed over. *)
Theorem Node_new_free_roundtrip tk s0 n h s fuel :
  is_Some (tokens s0 !! tk) →
  Node_new (Some tk) s0 = (Some n, h, s) →
  2 ≤ fuel →
  ∃ s', Node_free fuel (Some n) s = Ok (None, s') ∧
        nodes s' = nodes s0 ∧ arrays s' = arrays s0 ∧
        tokens s' = delete tk (tokens s0) ∧
        released_nodes (drop (length (log s0)) (log s')) = [n] ∧
        released_tokens (drop (length (log s0)) (log s')) = [tk].
Proof.
  intros Hlive Hnew Hfuel.
  destruct (Node_new_inv _ _ _ _ _ Hnew) as [(_ & [= ->] & _ & ->)|(_ & ? & _)];
    [|done].
  set (n := fresh (dom (nodes s0))). set (a := fresh (dom (arrays s0))).
  destruct (Node_free_teardown (Tree n tk a []) (constructed (Some tk) s0) fuel)
    as (s' & Hrun & Hn' & Ha' & Ht' & Ho' & Hl').
  { eapply owns_Tree; simpl; try done.
    - apply lookup_insert_eq.
    - done.
    - done.
    - apply lookup_insert_eq. }
  { repeat split; apply NoDup_singleton. }
  { simpl. lia. }
  exists s'. split; [done|]. repeat split.
  - apply map_eq. intros q. rewrite Hn'. simpl.
    destruct (decide _) as [->%list_elem_of_singleton|Hout].
    + symmetry. apply fresh_node.
    + rewrite lookup_insert_ne; [done|]. intros <-. apply Hout, list_elem_of_here.
  - apply map_eq. intros q. rewrite Ha'. simpl.
    destruct (decide _) as [->%list_elem_of_singleton|Hout].
    + symmetry. apply fresh_array.
    + rewrite lookup_insert_ne; [done|]. intros <-. apply Hout, list_elem_of_here.
  - apply map_eq. intros q. rewrite Ht'. simpl.
    destruct (decide _) as [->%list_elem_of_singleton|Hout].
    + by rewrite lookup_delete_eq.
    + rewrite lookup_delete_ne; [done|]. intros <-. apply Hout, list_elem_of_here.
  - rewrite Hl'. simpl. by rewrite drop_app_length.
  - rewrite Hl'. simpl. by rewrite drop_app_length.
Qed.

(** X6: two Nodes made from two different Tokens share nothing: destroying
    either of them leaves the other with its Token, still live, and with its
    own empty container. *)
Theorem Node_free_leaves_other_Node tk1 tk2 s0 n1 h1 s1 n2 h2 s2 fuel :
  tk1 ≠ tk2 →
  is_Some (tokens s0 !! tk1) → is_Some (tokens s0 !! tk2) →
  Node_new (Some tk1) s0 = (Some n1, h1, s1) →
  Node_new (Some tk2) s1 = (Some n2, h2, s2) →
  2 ≤ fuel →
  (∃ s3, Node_free fuel (Some n1) s2 = Ok (None, s3) ∧
         Node_getToken (Some n2) s3 = Ok (Some tk2) ∧
         tokens s3 !! tk2 = tokens s0 !! tk2 ∧
         Node_hasChildren (Some n2) s3 = Ok false) ∧
  (∃ s3, Node_free fuel (Some n2) s2 = Ok (None, s3) ∧
         Node_getToken (Some n1) s3 = Ok (Some tk1) ∧
         tokens s3 !! tk1 = tokens s0 !! tk1 ∧
         Node_hasChildren (Some n1) s3 = Ok false).
Proof.
  intros Hne Hl1 Hl2 Hnew1 Hnew2 Hfuel.
  destruct (Node_new_inv _ _ _ _ _ Hnew1) as [(_ & [= ->] & _ & ->)|(_ & ? & _)];
    [|done].
  destruct (Node_new_inv _ _ _ _ _ Hnew2) as [(_ & [= ->] & _ & ->)|(_ & ? & _)];
    [|done].
  set (s1 := constructed (Some tk1) s0). set (s2 := constructed (Some tk2) s1).
  set (n1 := fresh (dom (nodes s0))). set (a1 := fresh (dom (arrays s0))).
  set (n2 := fresh (dom (nodes s1))). set (a2 := fresh (dom (arrays s1))).
  assert (Hn12 : n1 ≠ n2).
  { intros E. pose proof (fresh_node s1) as F. fold n2 in F. rewrite <- E in F.
    simpl in F. by rewrite lookup_insert_eq in F. }
  assert (Ha12 : a1 ≠ a2).
  { intros E. pose proof (fresh_array s1) as F. fold a2 in F. rewrite <- E in F.
    simpl in F. by rewrite lookup_insert_eq in F. }
  assert (Hnd1 : nodes s2 !! n1
                 = Some {| token := Some tk1; parent := None; children := Some a1 |}).
  { simpl. rewrite lookup_insert_ne by done. apply lookup_insert_eq. }
  assert (Hnd2 : nodes s2 !! n2
                 = Some {| token := Some tk2; parent := None; children := Some a2 |})
    by apply lookup_insert_eq.
  assert (Har1 : arrays s2 !! a1 = Some []).
  { simpl. rewrite lookup_insert_ne by done. apply lookup_insert_eq. }
  assert (Har2 : arrays s2 !! a2 = Some []) by apply lookup_insert_eq.
  split.
  - destruct (Node_free_teardown (Tree n1 tk1 a1 []) s2 fuel)
      as (s3 & Hrun & Hn' & Ha' & Ht' & _).
    { eapply owns_Tree; try done. }
    { repeat split; apply NoDup_singleton. }
    { simpl. lia. }
    assert (Hnd3 : nodes s3 !! n2
                   = Some {| token := Some tk2; parent := None; children := Some a2 |}).
    { rewrite Hn', decide_False; [done|]. by intros ->%list_elem_of_singleton. }
    assert (Har3 : arrays s3 !! a2 = Some []).
    { rewrite Ha', decide_False; [done|]. by intros ->%list_elem_of_singleton. }
    exists s3. split; [done|]. split; [|split].
    + change (Node_getToken (Some n2) s3 = Ok (Some tk2)).
      unfold Node_getToken. by rewrite (Node_load_live _ _ _ Hnd3).
    + rewrite Ht', decide_False; [done|]. by intros ->%list_elem_of_singleton.
    + change (Node_hasChildren (Some n2) s3 = Ok false).
      by rewrite (Node_hasChildren_live _ _ _ _ _ Hnd3 eq_refl Har3).
  - destruct (Node_free_teardown (Tree n2 tk2 a2 []) s2 fuel)
      as (s3 & Hrun & Hn' & Ha' & Ht' & _).
    { eapply owns_Tree; try done. }
    { repeat split; apply NoDup_singleton. }
    { simpl. lia. }
    assert (Hnd3 : nodes s3 !! n1
                   = Some {| token := Some tk1; parent := None; children := Some a1 |}).
    { rewrite Hn', decide_False; [done|]. by intros ->%list_elem_of_singleton. }
    assert (Har3 : arrays s3 !! a1 = Some []).
    { rewrite Ha', decide_False; [done|]. by intros ->%list_elem_of_singleton. }
    exists s3. split; [done|]. split; [|split].
    + unfold Node_getToken. by rewrite (Node_load_live _ _ _ Hnd3).
    + rewrite Ht', decide_False; [done|]. by intros ->%list_elem_of_singleton.
    + by rewrite (Node_hasChildren_live _ _ _ _ _ Hnd3 eq_refl Har3).
Qed.

Lemma released_arrays_teardown t : released_arrays (teardown t) ≡ₚ tree_arrays t.
Proof.
  induction t as [n tk a kids IH] using tree_ind'.
  unfold released_arrays, tree_arrays in *. simpl.
  rewrite omap_app. simpl. rewrite Permutation_app_comm. simpl.
  apply Permutation_cons; [done|].
  induction IH as [|k ks Hk _ IHks]; [done|].
  rewrite !bind_cons, omap_app. by apply Permutation_app.
Qed.

(** X7: destroying a built tree also releases the children container of
    every one of its Nodes, each once: as many containers as Nodes, no
    container twice, none left, no other container touched; and
    [Node_free] asks the allocator for nothing. *)
Theorem Node_free_releases_containers r ns ts s fuel :
  Built r ns ts s →
  2 * length ns ≤ fuel →
  ∃ s' evs,
    Node_free fuel (Some r) s = Ok (None, s') ∧
    log s' = log s ++ evs ∧
    NoDup (released_arrays evs) ∧
    length (released_arrays evs) = length ns ∧
    (∀ n, n ∈ ns → ∃ nd a, nodes s !! n = Some nd ∧ children nd = Some a
                           ∧ a ∈ released_arrays evs) ∧
    (∀ a, arrays s' !! a
          = if decide (a ∈ released_arrays evs) then None else arrays s !! a) ∧
    oracle s' = oracle s.
Proof.
  intros HB Hfuel.
  destruct (Built_owned _ _ _ _ HB) as (t & -> & Hown & Hsep & Hns & Hts).
  destruct (Node_free_teardown t s fuel Hown Hsep) as (s' & Hrun & _ & Ha & _ & Ho & Hl).
  { by rewrite <- Hns. }
  destruct Hsep as (_ & _ & NDa).
  exists s', (teardown t). repeat split; try done.
  - by rewrite released_arrays_teardown.
  - rewrite released_arrays_teardown, Hns. apply walk_length.
  - intros n Hin. rewrite Hns in Hin.
    destruct (owns_node_live _ _ _ Hown Hin) as (nd & a & ? & ? & ?).
    exists nd, a. repeat split; try done. by rewrite released_arrays_teardown.
  - intros a. rewrite Ha. repeat destruct (decide _) as [?Hin|?Hout]; try done.
    + by rewrite released_arrays_teardown in Hout.
    + by rewrite released_arrays_teardown in Hin.
Qed.

(** X8: what building keeps true of every Node of the tree: its Token is
    one of those handed over and is live, its container is live, and the
    iterator produces only Nodes of the tree, never null and never the Node
    itself. *)
Theorem Built_well_formed r ns ts s n :
  Built r ns ts s → n ∈ ns →
  ∃ tk cs,
    Node_getToken (Some n) s = Ok (Some tk) ∧ tk ∈ ts ∧ is_Some (tokens s !! tk) ∧
    Node_childCount (Some n) s = Ok (Z.of_nat (length cs)) ∧
    (∃ it, Node_iterator (Some n) s = Ok it
           ∧ NodeIterator_collect (S (length cs)) it s = Ok (Some <$> cs)) ∧
    (∀ c, c ∈ cs → c ∈ ns ∧ c ≠ n).
Proof.
  intros HB Hin.
  destruct (Built_owned _ _ _ _ HB) as (t & -> & Hown & (NDn & _) & Hns & Hts).
  rewrite Hns in Hin.
  destruct (node_cell _ _ Hin) as (tk & a & Hcell).
  destruct (owns_cell _ _ _ _ _ Hown Hcell)
    as (nd & kids & Hnd & Htk & Hch & Harr & Hlive & Hsub & Hself).
  exists tk, (root <$> kids).
  split; [|split; [|split; [|split; [|split]]]].
  - unfold Node_getToken. by rewrite (Node_load_live _ _ _ Hnd), bind_Ok, Htk.
  - rewrite Hts. by eapply cell_token.
  - done.
  - rewrite (Node_childCount_live _ _ _ _ _ Hnd Hch Harr). by rewrite !length_fmap.
  - exists (NodeIterator_new (Some a)). split.
    + by apply (Node_iterator_live _ _ _ _ _ Hnd Hch Harr).
    + unfold NodeIterator_new.
      rewrite (NodeIterator_collect_drop _ _ _ Harr) by (rewrite !length_fmap; lia).
      simpl. by rewrite <- list_fmap_compose.
  - intros c (k & -> & Hk)%list_elem_of_fmap. split.
    + rewrite Hns. by apply Hsub.
    + intros E. apply (Hself NDn). apply list_elem_of_bind. exists k.
      split; [|done]. rewrite <- E. apply root_in_nodes.
Qed.

(** X9: no sharing in a built tree: two Nodes of the tree that hold the
    same Token, or the same children container, are the same Node. *)
Theorem Built_no_sharing r ns ts s n m ndn ndm :
  Built r ns ts s → n ∈ ns → m ∈ ns →
  nodes s !! n = Some ndn → nodes s !! m = Some ndm →
  token ndn = token ndm ∨ children ndn = children ndm →
  n = m.
Proof.
  intros HB Hn Hm Hndn Hndm Hsame.
  destruct (Built_owned _ _ _ _ HB) as (t & -> & Hown & (_ & NDt & NDa) & Hns & _).
  rewrite Hns in Hn, Hm.
  destruct (node_cell _ _ Hn) as (tkn & an & Hcn).
  destruct (node_cell _ _ Hm) as (tkm & am & Hcm).
  destruct (owns_cell _ _ _ _ _ Hown Hcn) as (nd & _ & Hnd & Htk & Hch & _).
  destruct (owns_cell _ _ _ _ _ Hown Hcm) as (nd' & _ & Hnd' & Htk' & Hch' & _).
  simplify_eq. destruct Hsame as [E|E].
  - rewrite Htk, Htk' in E. injection E as ->. by eapply cell_token_inj.
  - rewrite Hch, Hch' in E. injection E as ->. by eapply cell_array_inj.
Qed.

(** What an iterator produces depends on its container only. *)
Lemma NodeIterator_collect_ext s s' a :
  arrays s' !! a = arrays s !! a →
  ∀ fuel i,
    NodeIterator_collect fuel {| it_array := Some a; it_next := i |} s'
    = NodeIterator_collect fuel {| it_array := Some a; it_next := i |} s.
Proof.
  intros H. induction fuel as [|fuel IH]; intros i; [done|].
  simpl. unfold NodeIterator_hasNext, NodeIterator_next, Array_length,
    Array_getObject, Array_load. simpl. rewrite H.
  destruct (arrays s !! a) as [l|]; [|done]. simpl.
  destruct (Z.of_nat i <? Z.of_nat (length l))%Z; [|done].
  destruct (Z.of_nat i <? 0)%Z; simpl; by rewrite IH.
Qed.

(** X10: appending below one Node of a built tree leaves every other Node
    of the tree as it was, whether or not the construction inside
    [Node_addChild] succeeds: same Token, same children count, same last
    child, same sequence from the iterator. *)
Theorem Node_addChild_elsewhere r ns ts s n m tok h s' :
  Built r ns ts s → n ∈ ns → m ∈ ns → n ≠ m →
  Node_addChild (Some m) tok s = Ok (h, s') →
  Node_getToken (Some n) s' = Node_getToken (Some n) s ∧
  Node_childCount (Some n) s' = Node_childCount (Some n) s ∧
  Node_hasChildren (Some n) s' = Node_hasChildren (Some n) s ∧
  Node_getLastChild (Some n) s' = Node_getLastChild (Some n) s ∧
  ∃ it, Node_iterator (Some n) s' = Ok it ∧ Node_iterator (Some n) s = Ok it ∧
        ∀ fuel, NodeIterator_collect fuel it s' = NodeIterator_collect fuel it s.
Proof.
  intros HB Hn Hm Hne Hadd.
  destruct (Built_owned _ _ _ _ HB) as (t & -> & Hown & (_ & _ & NDa) & Hns & _).
  rewrite Hns in Hn, Hm.
  destruct (node_cell _ _ Hn) as (tkn & an & Hcn).
  destruct (node_cell _ _ Hm) as (tkm & am & Hcm).
  destruct (owns_cell _ _ _ _ _ Hown Hcn) as (ndn & kn & Hndn & _ & Hchn & Harrn & _).
  destruct (owns_cell _ _ _ _ _ Hown Hcm) as (ndm & km & Hndm & _ & Hchm & Harrm & _).
  assert (Hanm : an ≠ am).
  { intros ->. apply Hne. by eapply cell_array_inj. }
  destruct (Node_new tok s) as [[child h0] s1] eqn:Hnew.
  destruct (Node_addChild_run _ _ _ _ _ _ Hndm Hchm Harrm _ _ _ Hnew) as (Hrun & _ & _).
  destruct (Node_addChild_run _ _ _ _ _ _ Hndn Hchn Harrn _ _ _ Hnew) as (_ & Hndn1 & Harrn1).
  rewrite Hrun in Hadd. injection Hadd as <- <-.
  set (s' := with_arrays _ s1).
  assert (Hndn' : nodes s' !! n = Some ndn) by done.
  assert (Harrn' : arrays s' !! an = Some ((λ k, Some (root k)) <$> kn)).
  { simpl. by rewrite lookup_insert_ne. }
  split; [|split; [|split; [|split]]].
  - unfold Node_getToken.
    by rewrite (Node_load_live _ _ _ Hndn'), (Node_load_live _ _ _ Hndn).
  - by rewrite (Node_childCount_live _ _ _ _ _ Hndn' Hchn Harrn'),
      (Node_childCount_live _ _ _ _ _ Hndn Hchn Harrn).
  - by rewrite (Node_hasChildren_live _ _ _ _ _ Hndn' Hchn Harrn'),
      (Node_hasChildren_live _ _ _ _ _ Hndn Hchn Harrn).
  - by rewrite (Node_getLastChild_live _ _ _ _ _ Hndn' Hchn Harrn'),
      (Node_getLastChild_live _ _ _ _ _ Hndn Hchn Harrn).
  - exists (NodeIterator_new (Some an)). split; [|split].
    + by apply (Node_iterator_live _ _ _ _ _ Hndn' Hchn Harrn').
    + by apply (Node_iterator_live _ _ _ _ _ Hndn Hchn Harrn).
    + intros fuel. apply NodeIterator_collect_ext. congruence.
Qed.

(** X11: the four observers of a Node's children agree: on a Node whose
    children count is [k], [Node_hasChildren] says whether [k] is positive,
    the iterator produces [k] elements, and [Node_getLastChild] is the last
    of them, or null when there is none. *)
Theorem Node_observers_agree n s k :
  Node_childCount (Some n) s = Ok k →
  Node_hasChildren (Some n) s = Ok (0 <? k)%Z ∧
  ∃ it cs, Node_iterator (Some n) s = Ok it ∧
           NodeIterator_collect (S (Z.to_nat k)) it s = Ok cs ∧
           Z.of_nat (length cs) = k ∧
           Node_getLastChild (Some n) s = Ok (default None (last cs)).
Proof.
  intros (nd & a & l & Hnd & Hch & Harr & ->)%Node_childCount_inv.
  split; [by apply (Node_hasChildren_live _ _ _ _ _ Hnd Hch Harr)|].
  exists (NodeIterator_new (Some a)), l. split; [|split; [|split]].
  - by apply (Node_iterator_live _ _ _ _ _ Hnd Hch Harr).
  - unfold NodeIterator_new.
    by rewrite (NodeIterator_collect_drop _ _ _ Harr) by lia.
  - done.
  - by apply (Node_getLastChild_live _ _ _ _ _ Hnd Hch Harr).
Qed.

(** X12: [Node_addChild] does not look at the handle it is given.  Called
    a second time with the handle the first call has emptied, and the
    allocation succeeding, it appends one more child, a Node whose Token is
    null; no Token is moved or released by the second call. *)
Theorem Node_addChild_reused_handle n tk s k s1 c h2 s1' h s2 :
  Node_childCount (Some n) s = Ok k →
  Node_addChild (Some n) (Some tk) s = Ok (None, s1) →
  Node_new None s1 = (Some c, h2, s1') →
  Node_addChild (Some n) None s1 = Ok (h, s2) →
  h = None ∧
  Node_getLastChild (Some n) s2 = Ok (Some c) ∧
  Node_getToken (Some c) s2 = Ok None ∧
  Node_childCount (Some n) s2 = Ok (k + 2)%Z ∧
  tokens s2 = tokens s.
Proof.
  intros (nd & a & l & Hnd & Hch & Harr & ->)%Node_childCount_inv Hadd1 Hnew2 Hadd2.
  destruct (Node_new (Some tk) s) as [[child h0] s0] eqn:Hnew1.
  destruct (Node_addChild_run _ _ _ _ _ _ Hnd Hch Harr _ _ _ Hnew1) as (Hrun1 & Hnd0 & _).
  rewrite Hrun1 in Hadd1. injection Hadd1 as -> <-.
  set (s1 := with_arrays _ s0) in *.
  assert (Hnd1 : nodes s1 !! n = Some nd) by done.
  assert (Harr1 : arrays s1 !! a = Some (l ++ [child])) by apply lookup_insert_eq.
  assert (Htok1 : tokens s1 = tokens s).
  { by destruct (Node_new_inv _ _ _ _ _ Hnew1) as [(_ & _ & _ & ->)|(_ & _ & _ & ->)]. }
  destruct (Node_addChild_run _ _ _ _ _ _ Hnd1 Hch Harr1 _ _ _ Hnew2) as (Hrun2 & Hnd1' & _).
  rewrite Hrun2 in Hadd2. injection Hadd2 as <- <-.
  destruct (Node_new_inv _ _ _ _ _ Hnew2) as [(_ & [= ->] & -> & ->)|(_ & ? & _)];
    [|done].
  set (s2 := with_arrays _ (constructed None s1)).
  assert (Hnd2 : nodes s2 !! n = Some nd) by done.
  assert (Harr2 : arrays s2 !! a = Some ((l ++ [child]) ++ [Some (fresh (dom (nodes s1)))]))
    by apply lookup_insert_eq.
  split; [done|]. split; [|split; [|split]].
  - by rewrite (Node_getLastChild_live _ _ _ _ _ Hnd2 Hch Harr2), last_snoc.
  - unfold Node_getToken, Node_load. simpl. by rewrite lookup_insert_eq.
  - rewrite (Node_childCount_live _ _ _ _ _ Hnd2 Hch Harr2), !length_app. simpl.
    f_equal. lia.
  - done.
Qed.

(** X13: on any Node of a built tree [Node_addChild] returns, whatever the
    allocator answers and whatever the handle holds; the handle comes back
    emptied when the child was constructed and untouched when it was not. *)
Theorem Node_addChild_on_built r ns ts s n tok :
  Built r ns ts s → n ∈ ns →
  ∃ h s', Node_addChild (Some n) tok s = Ok (h, s') ∧
          ((head (oracle s) = Some true ∧ h = None)
           ∨ (head (oracle s) ≠ Some true ∧ h = tok)).
Proof.
  intros HB Hn.
  destruct (Built_owned _ _ _ _ HB) as (t & -> & Hown & _ & Hns & _).
  rewrite Hns in Hn.
  destruct (owns_node_live _ _ _ Hown Hn) as (nd & a & Hnd & Hch & Ha).
  destruct (owns_array_live _ _ _ Hown Ha) as [l Hl].
  destruct (Node_new tok s) as [[child h] s1] eqn:Hnew.
  destruct (Node_addChild_run _ _ _ _ _ _ Hnd Hch Hl _ _ _ Hnew) as (Hrun & _).
  eexists _, _. split; [exact Hrun|].
  destruct (Node_new_inv _ _ _ _ _ Hnew) as [(? & _ & ? & _)|(? & _ & ? & _)]; auto.
Qed.

End Further.

(** ** The further properties at the worked stores *)

Lemma ex_store2_Built : Built 1%positive [1; 2]%positive [10; 11]%positive ex_store2.
Proof.
  apply (Built_addChild 1 [1] [10] ex_store1 1 11 2 None
           (constructed (Some 11%positive) ex_store1) None ex_store2)%positive.
  - apply (Built_construct ex_store0 10 1 None ex_store1)%positive.
    + vm_compute. by eexists.
    + exact ex_store1_new.
  - apply list_elem_of_here.
  - vm_compute. by eexists.
  - intros H%list_elem_of_singleton. discriminate H.
  - exact ex_store2_new.
  - exact ex_store2_addChild.
Defined.

Lemma Node_free_stops_at_null_witness :
  arrays ex_gap3 !! 1%positive = Some [None; Some 2%positive] ∧
  ∃ s', Node_free 3 (Some 1%positive) ex_gap3 = Ok (None, s') ∧
        released (tree_nodes (Tree 1 10 1 [])) (tree_arrays (Tree 1 10 1 []))
                 (tree_tokens (Tree 1 10 1 [])) (teardown (Tree 1 10 1 [])) ex_gap3 s' ∧
        ∀ c, Some c ∈ [Some 2%positive] → c ∉ tree_nodes (Tree 1 10 1 []) →
             nodes s' !! c = nodes ex_gap3 !! c.
Proof.
  split; [vm_compute; reflexivity|].
  apply (Node_free_stops_at_null ex_gap3 1%positive
           {| token := Some 10%positive; parent := None; children := Some 1%positive |}
           10%positive 1%positive [] [Some 2%positive] 3).
  - vm_compute. reflexivity.
  - reflexivity.
  - reflexivity.
  - vm_compute. by eexists.
  - vm_compute. reflexivity.
  - apply Forall_nil_2.
  - repeat split; apply NoDup_singleton.
  - vm_compute. lia.
Defined.

Lemma Node_free_child_stays_listed_witness :
  owns ex_store2 ex_tree2 ∧ separate ex_tree2 ∧
  ∃ s1, Node_free 2 (Some 2%positive) ex_store2 = Ok (None, s1) ∧
        nodes s1 !! 2%positive = None ∧
        nodes s1 !! 1%positive = nodes ex_store2 !! 1%positive ∧
        arrays s1 !! 1%positive = Some [Some 2%positive] ∧
        Node_childCount (Some 1%positive) s1 = Node_childCount (Some 1%positive) ex_store2.
Proof.
  split; [exact ex_tree2_owned|]. split; [exact ex_tree2_separate|].
  apply (Node_free_child_stays_listed ex_store2 1%positive 10%positive 1%positive
           [] (Tree 2 11 2 []) [] 2).
  - exact ex_tree2_owned.
  - exact ex_tree2_separate.
  - vm_compute. lia.
Defined.

Lemma Node_free_parent_after_child_witness :
  Node_free 2 (Some 2%positive) ex_store2 = Ok (None, ex_store2_orphan) ∧
  Node_free 3 (Some 1%positive) ex_store2_orphan = Fault.
Proof.
  split; [vm_compute; reflexivity|].
  apply (Node_free_parent_after_child ex_store2 1%positive 10%positive 1%positive
           [] (Tree 2 11 2 []) [] 2 None ex_store2_orphan 3).
  - exact ex_tree2_owned.
  - exact ex_tree2_separate.
  - vm_compute. lia.
  - vm_compute. reflexivity.
  - vm_compute. lia.
Defined.

Lemma Node_setParent_teardown_witness :
  Node_setParent (Some 2%positive) (Some 2%positive) ex_store2 = Ok ex_store2_linked ∧
  (∃ nd, nodes ex_store2 !! 2%positive = Some nd
         ∧ nodes ex_store2_linked !! 2%positive = Some (set_parent (Some 2%positive) nd)) ∧
  ∃ s', Node_free 4 (Some (root ex_tree2)) ex_store2_linked = Ok (None, s') ∧
        released (tree_nodes ex_tree2) (tree_arrays ex_tree2) (tree_tokens ex_tree2)
                 (teardown ex_tree2) ex_store2 s'.
Proof.
  split; [vm_compute; reflexivity|].
  apply (Node_setParent_teardown ex_store2 ex_tree2 2%positive (Some 2%positive)
           ex_store2_linked 4).
  - exact ex_tree2_owned.
  - exact ex_tree2_separate.
  - apply list_elem_of_further, list_elem_of_here.
  - vm_compute. reflexivity.
  - vm_compute. lia.
Defined.

Lemma Node_new_free_roundtrip_witness :
  Node_new (Some 10%positive) ex_store0 = (Some 1%positive, None, ex_store1) ∧
  ∃ s', Node_free 2 (Some 1%positive) ex_store1 = Ok (None, s') ∧
        nodes s' = nodes ex_store0 ∧ arrays s' = arrays ex_store0 ∧
        tokens s' = delete 10%positive (tokens ex_store0) ∧
        released_nodes (drop (length (log ex_store0)) (log s')) = [1%positive] ∧
        released_tokens (drop (length (log ex_store0)) (log s')) = [10%positive].
Proof.
  split; [exact ex_store1_new|].
  apply (Node_new_free_roundtrip 10%positive ex_store0 1%positive None ex_store1 2).
  - vm_compute. by eexists.
  - exact ex_store1_new.
  - lia.
Defined.

Lemma Node_free_leaves_other_Node_witness :
  (∃ s3, Node_free 2 (Some 1%positive) (constructed (Some 11%positive) ex_store1)
         = Ok (None, s3) ∧
         Node_getToken (Some 2%positive) s3 = Ok (Some 11%positive) ∧
         tokens s3 !! 11%positive = tokens ex_store0 !! 11%positive ∧
         Node_hasChildren (Some 2%positive) s3 = Ok false) ∧
  (∃ s3, Node_free 2 (Some 2%positive) (constructed (Some 11%positive) ex_store1)
         = Ok (None, s3) ∧
         Node_getToken (Some 1%positive) s3 = Ok (Some 10%positive) ∧
         tokens s3 !! 10%positive = tokens ex_store0 !! 10%positive ∧
         Node_hasChildren (Some 1%positive) s3 = Ok false).
Proof.
  apply (Node_free_leaves_other_Node 10%positive 11%positive ex_store0
           1%positive None ex_store1 2%positive None
           (constructed (Some 11%positive) ex_store1) 2).
  - intros H. discriminate H.
  - vm_compute. by eexists.
  - vm_compute. by eexists.
  - exact ex_store1_new.
  - exact ex_store2_new.
  - lia.
Defined.

Lemma Node_free_releases_containers_witness :
  Built 1%positive [1; 2; 3]%positive [10; 11; 12]%positive ex_store3 ∧
  ∃ s' evs,
    Node_free 6 (Some 1%positive) ex_store3 = Ok (None, s') ∧
    log s' = log ex_store3 ++ evs ∧
    NoDup (released_arrays evs) ∧
    length (released_arrays evs) = length [1; 2; 3]%positive ∧
    (∀ n, n ∈ [1; 2; 3]%positive →
          ∃ nd a, nodes ex_store3 !! n = Some nd ∧ children nd = Some a
                  ∧ a ∈ released_arrays evs) ∧
    (∀ a, arrays s' !! a
          = if decide (a ∈ released_arrays evs) then None else arrays ex_store3 !! a) ∧
    oracle s' = oracle ex_store3.
Proof.
  split; [exact ex_store3_Built|].
  apply (Node_free_releases_containers 1%positive [1; 2; 3]%positive
           [10; 11; 12]%positive ex_store3 6).
  - exact ex_store3_Built.
  - simpl. lia.
Defined.

Lemma Built_well_formed_witness :
  ∃ tk cs,
    Node_getToken (Some 1%positive) ex_store3 = Ok (Some tk) ∧
    tk ∈ [10; 11; 12]%positive ∧ is_Some (tokens ex_store3 !! tk) ∧
    Node_childCount (Some 1%positive) ex_store3 = Ok (Z.of_nat (length cs)) ∧
    (∃ it, Node_iterator (Some 1%positive) ex_store3 = Ok it
           ∧ NodeIterator_collect (S (length cs)) it ex_store3 = Ok (Some <$> cs)) ∧
    (∀ c, c ∈ cs → c ∈ [1; 2; 3]%positive ∧ c ≠ 1%positive).
Proof.
  apply (Built_well_formed 1%positive [1; 2; 3]%positive [10; 11; 12]%positive
           ex_store3 1%positive).
  - exact ex_store3_Built.
  - apply list_elem_of_here.
Defined.

Lemma Built_no_sharing_witness :
  nodes ex_store3 !! 2%positive
  = Some {| token := Some 11%positive; parent := None; children := Some 2%positive |} ∧
  2%positive = 2%positive.
Proof.
  split; [vm_compute; reflexivity|].
  apply (Built_no_sharing 1%positive [1; 2; 3]%positive [10; 11; 12]%positive
           ex_store3 2%positive 2%positive
           {| token := Some 11%positive; parent := None; children := Some 2%positive |}
           {| token := Some 11%positive; parent := None; children := Some 2%positive |}).
  - exact ex_store3_Built.
  - apply list_elem_of_further, list_elem_of_here.
  - apply list_elem_of_further, list_elem_of_here.
  - vm_compute. reflexivity.
  - vm_compute. reflexivity.
  - left. reflexivity.
Defined.

Lemma Node_addChild_elsewhere_witness :
  Node_addChild (Some 2%positive) (Some 12%positive) ex_store2 = Ok (None, ex_store3) ∧
  Node_getToken (Some 1%positive) ex_store3 = Node_getToken (Some 1%positive) ex_store2 ∧
  Node_childCount (Some 1%positive) ex_store3 = Node_childCount (Some 1%positive) ex_store2 ∧
  Node_hasChildren (Some 1%positive) ex_store3 = Node_hasChildren (Some 1%positive) ex_store2 ∧
  Node_getLastChild (Some 1%positive) ex_store3
  = Node_getLastChild (Some 1%positive) ex_store2 ∧
  ∃ it, Node_iterator (Some 1%positive) ex_store3 = Ok it ∧
        Node_iterator (Some 1%positive) ex_store2 = Ok it ∧
        ∀ fuel, NodeIterator_collect fuel it ex_store3
                = NodeIterator_collect fuel it ex_store2.
Proof.
  split; [exact ex_store3_addChild|].
  apply (Node_addChild_elsewhere 1%positive [1; 2]%positive [10; 11]%positive
           ex_store2 1%positive 2%positive (Some 12%positive) None ex_store3).
  - exact ex_store2_Built.
  - apply list_elem_of_here.
  - apply list_elem_of_further, list_elem_of_here.
  - intros H. discriminate H.
  - exact ex_store3_addChild.
Defined.

Lemma Node_observers_agree_witness :
  Node_childCount (Some 1%positive) ex_store2 = Ok 1%Z ∧
  Node_hasChildren (Some 1%positive) ex_store2 = Ok (0 <? 1)%Z ∧
  ∃ it cs, Node_iterator (Some 1%positive) ex_store2 = Ok it ∧
           NodeIterator_collect (S (Z.to_nat 1)) it ex_store2 = Ok cs ∧
           Z.of_nat (length cs) = 1%Z ∧
           Node_getLastChild (Some 1%positive) ex_store2 = Ok (default None (last cs)).
Proof.
  split; [vm_compute; reflexivity|].
  apply (Node_observers_agree 1%positive ex_store2 1%Z).
  vm_compute. reflexivity.
Defined.

Lemma Node_addChild_reused_handle_witness :
  Node_addChild (Some 1%positive) (Some 11%positive) ex_store1 = Ok (None, ex_store2) ∧
  Node_addChild (Some 1%positive) None ex_store2
  = Ok (None, after_addChild 1 None ex_store2) ∧
  Node_getLastChild (Some 1%positive) (after_addChild 1 None ex_store2)
  = Ok (Some 3%positive) ∧
  Node_getToken (Some 3%positive) (after_addChild 1 None ex_store2) = Ok None ∧
  Node_childCount (Some 1%positive) (after_addChild 1 None ex_store2) = Ok (0 + 2)%Z ∧
  tokens (after_addChild 1 None ex_store2) = tokens ex_store1.
Proof.
  split; [exact ex_store2_addChild|]. split; [vm_compute; reflexivity|].
  apply (Node_addChild_reused_handle 1%positive 11%positive ex_store1 0%Z ex_store2
           3%positive None (constructed None ex_store2) None
           (after_addChild 1 None ex_store2)).
  - vm_compute. reflexivity.
  - exact ex_store2_addChild.
  - vm_compute. reflexivity.
  - vm_compute. reflexivity.
Defined.

Lemma Node_addChild_on_built_witness :
  ∃ h s', Node_addChild (Some 3%positive) (Some 10%positive) ex_store3 = Ok (h, s') ∧
          ((head (oracle ex_store3) = Some true ∧ h = None)
           ∨ (head (oracle ex_store3) ≠ Some true ∧ h = Some 10%positive)).
Proof.
  apply (Node_addChild_on_built 1%positive [1; 2; 3]%positive [10; 11; 12]%positive
           ex_store3 3%positive (Some 10%positive)).
  - exact ex_store3_Built.
  - apply list_elem_of_further, list_elem_of_further, list_elem_of_here.
Defined.
